(** * ParkPin: the marker screen (app/app.tsx and app/(tabs)/_layout.tsx)

    A shallow embedding of the screen controller that keeps one optional
    marker in memory and a copy of it in AsyncStorage under the key
    [marker], together with the part of the JavaScript platform the
    controller relies on: numbers as JSON sees them, JSON.stringify and
    JSON.parse, truthiness, property access, and the outcomes of the
    asynchronous device calls.

    An async handler is a function from the state to a completion and a
    state; the answers of the device during the interaction are a
    parameter of the handler.  A handler runs to its end before the next
    one starts: the taps are discrete and the interleaving of two
    handlers at an [await] is not modelled. *)

From Stdlib Require Import ZArith Ascii String List Bool Lia DecimalPos.
From stdpp Require Import base option gmap strings.

Set Warnings "-register-all".

Local Open Scope char_scope.
Local Open Scope Z_scope.

(** ** Text

    JavaScript strings are modelled as Rocq strings; the parser and the
    printer work on their character lists. *)

Abbreviation text := (list ascii).

Definition text_of (s : string) : text := list_ascii_of_string s.
Definition string_of (t : text) : string := string_of_list_ascii t.

(** The double quote character. *)
Definition dquote : ascii := "034".
Definition backslash : ascii := "092".

(** ** Decimal digits *)

Inductive digit : Set := D0 | D1 | D2 | D3 | D4 | D5 | D6 | D7 | D8 | D9.

Definition char_of_digit (d : digit) : ascii :=
  match d with
  | D0 => "0" | D1 => "1" | D2 => "2" | D3 => "3" | D4 => "4"
  | D5 => "5" | D6 => "6" | D7 => "7" | D8 => "8" | D9 => "9"
  end.

Definition digit_of_char (c : ascii) : option digit :=
  match c with
  | "0" => Some D0 | "1" => Some D1 | "2" => Some D2 | "3" => Some D3
  | "4" => Some D4 | "5" => Some D5 | "6" => Some D6 | "7" => Some D7
  | "8" => Some D8 | "9" => Some D9
  | _ => None
  end.

Definition N_of_digit (d : digit) : N :=
  match d with
  | D0 => 0 | D1 => 1 | D2 => 2 | D3 => 3 | D4 => 4
  | D5 => 5 | D6 => 6 | D7 => 7 | D8 => 8 | D9 => 9
  end%N.

Definition is_zero_digit (d : digit) : bool :=
  match d with D0 => true | _ => false end.

Definition chars_of_digits (ds : list digit) : text := map char_of_digit ds.

(** The value of a digit string, most significant digit first. *)
Definition N_of_digits (ds : list digit) : N :=
  fold_left (fun acc d => (10 * acc + N_of_digit d)%N) ds 0%N.

(** The digits of a decimal numeral of the standard library. *)
Fixpoint digits_of_uint (u : Decimal.uint) : list digit :=
  match u with
  | Decimal.Nil => []
  | Decimal.D0 u => D0 :: digits_of_uint u
  | Decimal.D1 u => D1 :: digits_of_uint u
  | Decimal.D2 u => D2 :: digits_of_uint u
  | Decimal.D3 u => D3 :: digits_of_uint u
  | Decimal.D4 u => D4 :: digits_of_uint u
  | Decimal.D5 u => D5 :: digits_of_uint u
  | Decimal.D6 u => D6 :: digits_of_uint u
  | Decimal.D7 u => D7 :: digits_of_uint u
  | Decimal.D8 u => D8 :: digits_of_uint u
  | Decimal.D9 u => D9 :: digits_of_uint u
  end.

(** The digits of a natural number, without leading zeros; 0 is written
    with the single digit 0. *)
Definition digits_of_N (n : N) : list digit :=
  match n with
  | N0 => [D0]
  | Npos p => digits_of_uint (Pos.to_uint p)
  end.

(** ** Numbers

    The controller never computes with a coordinate: it stores it, prints
    it, reads it back and tests it for truthiness.  A Number is therefore
    modelled by what these operations see: NaN, the two infinities, zero,
    and otherwise a sign, the decimal digit string [digits] (most
    significant first) and the position [point] of the decimal point, for
    the value [0.digits * 10^point].  For a finite double this is the
    triple of ECMAScript's Number::toString, whose digit string is the
    shortest one that reads back as the same double; it has no leading
    and no trailing zero.  Equality of two numbers in this representation
    is ECMAScript's SameValueZero: NaN equals NaN and the sign of zero is
    not represented.  The decimal numbers form a superset of the finite
    doubles; the rounding and the overflow of a literal that is not the
    shortest text of a double are not modelled. *)

Inductive JsNumber : Set :=
| NaN
| Infinity (negative : bool)
| Zero
| Dec (negative : bool) (digits : list digit) (point : Z).

(** The digit string of a non-zero finite number: not empty, no leading
    and no trailing zero. *)
Definition canonical (ds : list digit) : bool :=
  match ds with
  | [] => false
  | d :: _ => negb (is_zero_digit d) && negb (is_zero_digit (List.last ds D0))
  end.

(** [finite x]: x is a finite number (in the representation above). *)
Definition finite (x : JsNumber) : bool :=
  match x with
  | NaN | Infinity _ => false
  | Zero => true
  | Dec _ ds _ => canonical ds
  end.

(** Number.isFinite, as JSON.stringify tests it. *)
Definition Number_isFinite (x : JsNumber) : bool :=
  match x with
  | NaN | Infinity _ => false
  | Zero | Dec _ _ _ => true
  end.

(** The digits [ds] with the decimal point after the first [n] of them,
    as Number::toString writes a positive number (ECMA-262, 6.1.6.1.20,
    steps 6 to 10). *)
Definition digits_toString (ds : list digit) (n : Z) : text :=
  let k := Z.of_nat (length ds) in
  if (k <=? n) && (n <=? 21) then
    chars_of_digits ds ++ repeat "0" (Z.to_nat (n - k))
  else if (0 <? n) && (n <=? 21) then
    chars_of_digits (firstn (Z.to_nat n) ds)
      ++ "." :: chars_of_digits (skipn (Z.to_nat n) ds)
  else if (-6 <? n) && (n <=? 0) then
    "0" :: "." :: repeat "0" (Z.to_nat (- n)) ++ chars_of_digits ds
  else
    let e := n - 1 in
    let sign := if e <? 0 then "-" else "+" in
    let exponent := chars_of_digits (digits_of_N (Z.abs_N e)) in
    match ds with
    | [] => []
    | [d] => char_of_digit d :: "e" :: sign :: exponent
    | d :: rest =>
        char_of_digit d :: "." :: chars_of_digits rest
          ++ "e" :: sign :: exponent
    end.

(** Number::toString(x) in radix 10. *)
Definition Number_toString (x : JsNumber) : text :=
  match x with
  | NaN => text_of "NaN"
  | Infinity false => text_of "Infinity"
  | Infinity true => text_of "-Infinity"
  | Zero => ["0"]
  | Dec neg ds n =>
      if neg then "-" :: digits_toString ds n else digits_toString ds n
  end.

(** *** Reading a JSON number literal *)

Fixpoint span_digits (s : text) : list digit * text :=
  match s with
  | [] => ([], [])
  | c :: s' =>
      match digit_of_char c with
      | Some d => let (ds, r) := span_digits s' in (d :: ds, r)
      | None => ([], s)
      end
  end.

Fixpoint strip_leading_zeros (ds : list digit) (point : Z) : list digit * Z :=
  match ds with
  | D0 :: ds' => strip_leading_zeros ds' (point - 1)
  | _ => (ds, point)
  end.

Definition strip_trailing_zeros (ds : list digit) : list digit :=
  rev (fst (strip_leading_zeros (rev ds) 0)).

(** The number denoted by the digits [ds] with the decimal point after
    the first [point] of them. *)
Definition make_number (neg : bool) (ds : list digit) (point : Z) : JsNumber :=
  let (ds1, n) := strip_leading_zeros ds point in
  match strip_trailing_zeros ds1 with
  | [] => Zero
  | ds2 => Dec neg ds2 n
  end.

(** int: a single 0, or a non-empty digit string that does not start
    with 0. *)
Definition parse_int (s : text) : option (list digit * text) :=
  match s with
  | "0" :: s' => Some ([D0], s')
  | _ => match span_digits s with
         | ([], _) => None
         | (ds, r) => Some (ds, r)
         end
  end.

Definition parse_frac (s : text) : option (list digit * text) :=
  match s with
  | "." :: s' => match span_digits s' with
                 | ([], _) => None
                 | (ds, r) => Some (ds, r)
                 end
  | _ => Some ([], s)
  end.

Definition parse_exp_digits (neg : bool) (s : text) : option (Z * text) :=
  match span_digits s with
  | ([], _) => None
  | (ds, r) =>
      let e := Z.of_N (N_of_digits ds) in
      Some (if neg then - e else e, r)
  end.

Definition parse_exp (s : text) : option (Z * text) :=
  match s with
  | "e" :: s' | "E" :: s' =>
      match s' with
      | "+" :: s'' => parse_exp_digits false s''
      | "-" :: s'' => parse_exp_digits true s''
      | _ => parse_exp_digits false s'
      end
  | _ => Some (0, s)
  end.

Definition parse_unsigned (neg : bool) (s : text) : option (JsNumber * text) :=
  match parse_int s with
  | None => None
  | Some (int, s1) =>
      match parse_frac s1 with
      | None => None
      | Some (frac, s2) =>
          match parse_exp s2 with
          | None => None
          | Some (e, s3) =>
              Some (make_number neg (int ++ frac) (Z.of_nat (length int) + e), s3)
          end
      end
  end.

Definition parse_number (s : text) : option (JsNumber * text) :=
  match s with
  | "-" :: s' => parse_unsigned true s'
  | _ => parse_unsigned false s
  end.

(** ** Values

    The values JSON.parse can return, and [Undefined], which a property
    access can.  An object keeps its own properties in creation order. *)

Inductive JsValue : Type :=
| Undefined
| Null
| Bool (b : bool)
| Num (x : JsNumber)
| Str (s : string)
| Arr (elems : list JsValue)
| Obj (props : list (string * JsValue)).

(** CreateDataProperty: an existing key keeps its place and takes the new
    value. *)
Fixpoint obj_set (k : string) (v : JsValue) (props : list (string * JsValue))
  : list (string * JsValue) :=
  match props with
  | [] => [(k, v)]
  | (k', v') :: ps =>
      if String.eqb k k' then (k, v) :: ps else (k', v') :: obj_set k v ps
  end.

Fixpoint obj_get (k : string) (props : list (string * JsValue)) : JsValue :=
  match props with
  | [] => Undefined
  | (k', v) :: ps => if String.eqb k k' then v else obj_get k ps
  end.

(** [v?.k] for a key [k] that no prototype defines (an array index or
    [length] is not such a key): Undefined on null and undefined, the own
    property of an object, Undefined on everything else. *)
Definition optional_get (v : JsValue) (k : string) : JsValue :=
  match v with
  | Obj props => obj_get k props
  | _ => Undefined
  end.

(** ToBoolean. *)
Definition truthy (v : JsValue) : bool :=
  match v with
  | Undefined | Null => false
  | Bool b => b
  | Num NaN | Num Zero => false
  | Num _ => true
  | Str s => negb (String.eqb s "")
  | Arr _ | Obj _ => true
  end.

(** [a || b]. *)
Definition js_or (a b : JsValue) : JsValue := if truthy a then a else b.

(** ** JSON.stringify *)

Definition hex_char (n : N) : ascii :=
  match n with
  | 0 => "0" | 1 => "1" | 2 => "2" | 3 => "3" | 4 => "4" | 5 => "5"
  | 6 => "6" | 7 => "7" | 8 => "8" | 9 => "9" | 10 => "a" | 11 => "b"
  | 12 => "c" | 13 => "d" | 14 => "e" | _ => "f"
  end%N.

(** QuoteJSONString, one character. *)
Definition quote_char (c : ascii) : text :=
  match c with
  | "008" => [backslash; "b"]
  | "009" => [backslash; "t"]
  | "010" => [backslash; "n"]
  | "012" => [backslash; "f"]
  | "013" => [backslash; "r"]
  | "034" => [backslash; dquote]
  | "092" => [backslash; backslash]
  | _ =>
      let n := N_of_ascii c in
      if (n <? 32)%N
      then [backslash; "u"; "0"; "0"; hex_char (n / 16); hex_char (n mod 16)]
      else [c]
  end.

Definition quote (s : string) : text :=
  dquote :: concat (map quote_char (text_of s)) ++ [dquote].

Fixpoint join (sep : ascii) (parts : list text) : text :=
  match parts with
  | [] => []
  | [p] => p
  | p :: ps => p ++ sep :: join sep ps
  end.

(** The JSON text of a number: JSON.stringify writes null for NaN and
    the infinities. *)
Definition number_text (x : JsNumber) : text :=
  if Number_isFinite x then Number_toString x else text_of "null".

(** SerializeJSONProperty; None is JavaScript's undefined result. *)
Fixpoint serialize (v : JsValue) : option text :=
  match v with
  | Undefined => None
  | Null => Some (text_of "null")
  | Bool true => Some (text_of "true")
  | Bool false => Some (text_of "false")
  | Num x => Some (number_text x)
  | Str s => Some (quote s)
  | Arr elems =>
      let fix items (vs : list JsValue) : list text :=
        match vs with
        | [] => []
        | v :: vs' =>
            match serialize v with
            | Some t => t
            | None => text_of "null"
            end :: items vs'
        end in
      Some ("[" :: join "," (items elems) ++ ["]"])
  | Obj props =>
      let fix members (ps : list (string * JsValue)) : list text :=
        match ps with
        | [] => []
        | (k, v) :: ps' =>
            match serialize v with
            | Some t => (quote k ++ ":" :: t) :: members ps'
            | None => members ps'
            end
        end in
      Some ("{" :: join "," (members props) ++ ["}"])
  end.

Definition JSON_stringify (v : JsValue) : option string :=
  option_map string_of (serialize v).

(** ** JSON.parse *)

Inductive parsed (A : Type) : Type :=
| Ok (a : A) (rest : text)
| SyntaxError
| OutOfFuel.
Arguments Ok {A} a rest.
Arguments SyntaxError {A}.
Arguments OutOfFuel {A}.

Definition is_ws (c : ascii) : bool :=
  match c with
  | " " | "009" | "010" | "013" => true
  | _ => false
  end.

Fixpoint skip_ws (s : text) : text :=
  match s with
  | c :: s' => if is_ws c then skip_ws s' else s
  | [] => []
  end.

Definition hex_value (c : ascii) : option N :=
  match digit_of_char c with
  | Some d => Some (N_of_digit d)
  | None =>
      match c with
      | "a" | "A" => Some 10
      | "b" | "B" => Some 11
      | "c" | "C" => Some 12
      | "d" | "D" => Some 13
      | "e" | "E" => Some 14
      | "f" | "F" => Some 15
      | _ => None
      end
  end%N.

(** The bytes (UTF-8) of the code unit of a \u escape. *)
Definition utf8 (n : N) : text :=
  (if n <? 128 then [ascii_of_N n]
   else if n <? 2048 then
     [ascii_of_N (192 + n / 64); ascii_of_N (128 + n mod 64)]
   else
     [ascii_of_N (224 + n / 4096); ascii_of_N (128 + (n / 64) mod 64);
      ascii_of_N (128 + n mod 64)])%N.

Inductive string_mode : Set :=
| Plain
| Escape
| Hex (more : nat) (code : N).

(** The characters of a string literal after its opening quote, up to
    and including the closing quote. *)
Fixpoint scan_string (m : string_mode) (acc : text) (s : text)
  : parsed string :=
  match s with
  | [] => SyntaxError
  | c :: s' =>
      match m with
      | Plain =>
          match c with
          | "034" => Ok (string_of (rev acc)) s'
          | "092" => scan_string Escape acc s'
          | _ => if (N_of_ascii c <? 32)%N then SyntaxError
                 else scan_string Plain (c :: acc) s'
          end
      | Escape =>
          match c with
          | "034" | "092" | "/" => scan_string Plain (c :: acc) s'
          | "b" => scan_string Plain ("008" :: acc) s'
          | "f" => scan_string Plain ("012" :: acc) s'
          | "n" => scan_string Plain ("010" :: acc) s'
          | "r" => scan_string Plain ("013" :: acc) s'
          | "t" => scan_string Plain ("009" :: acc) s'
          | "u" => scan_string (Hex 3 0) acc s'
          | _ => SyntaxError
          end
      | Hex more code =>
          match hex_value c with
          | None => SyntaxError
          | Some h =>
              let code' := (16 * code + h)%N in
              match more with
              | O => scan_string Plain (rev (utf8 code') ++ acc) s'
              | S more' => scan_string (Hex more' code') acc s'
              end
          end
      end
  end.

Section Containers.
(** The loops of an array and of an object, over the parser [value] of
    one value. *)
Variable value : text -> parsed JsValue.

Fixpoint parse_elements (n : nat) (acc : list JsValue) (s : text)
  : parsed JsValue :=
  match n with
  | O => OutOfFuel
  | S n' =>
      match value s with
      | Ok v r =>
          match skip_ws r with
          | "," :: r' => parse_elements n' (v :: acc) r'
          | "]" :: r' => Ok (Arr (rev (v :: acc))) r'
          | _ => SyntaxError
          end
      | SyntaxError => SyntaxError
      | OutOfFuel => OutOfFuel
      end
  end.

Fixpoint parse_members (n : nat) (acc : list (string * JsValue)) (s : text)
  : parsed JsValue :=
  match n with
  | O => OutOfFuel
  | S n' =>
      match skip_ws s with
      | "034" :: s1 =>
          match scan_string Plain [] s1 with
          | Ok k s2 =>
              match skip_ws s2 with
              | ":" :: s3 =>
                  match value s3 with
                  | Ok v r =>
                      match skip_ws r with
                      | "," :: r' => parse_members n' (obj_set k v acc) r'
                      | "}" :: r' => Ok (Obj (obj_set k v acc)) r'
                      | _ => SyntaxError
                      end
                  | SyntaxError => SyntaxError
                  | OutOfFuel => OutOfFuel
                  end
              | _ => SyntaxError
              end
          | _ => SyntaxError
          end
      | _ => SyntaxError
      end
  end.
End Containers.

(** [strip_prefix p s]: what follows the prefix [p] of [s]. *)
Fixpoint strip_prefix (p s : text) : option text :=
  match p with
  | [] => Some s
  | c :: p' =>
      match s with
      | c' :: s' => if Ascii.eqb c c' then strip_prefix p' s' else None
      | [] => None
      end
  end.

(** One JSON value, after optional white space.  [fuel] bounds the
    nesting depth. *)
Fixpoint parse_value (fuel : nat) (s : text) : parsed JsValue :=
  match fuel with
  | O => OutOfFuel
  | S fuel' =>
      let s0 := skip_ws s in
      match strip_prefix (text_of "null") s0 with
      | Some r => Ok Null r
      | None =>
      match strip_prefix (text_of "true") s0 with
      | Some r => Ok (Bool true) r
      | None =>
      match strip_prefix (text_of "false") s0 with
      | Some r => Ok (Bool false) r
      | None =>
      match s0 with
      | "034" :: r =>
          match scan_string Plain [] r with
          | Ok str r' => Ok (Str str) r'
          | _ => SyntaxError
          end
      | "[" :: r =>
          match skip_ws r with
          | "]" :: r' => Ok (Arr []) r'
          | _ => parse_elements (parse_value fuel') (S (length r)) [] r
          end
      | "{" :: r =>
          match skip_ws r with
          | "}" :: r' => Ok (Obj []) r'
          | _ => parse_members (parse_value fuel') (S (length r)) [] r
          end
      | _ =>
          match parse_number s0 with
          | Some (x, r) => Ok (Num x) r
          | None => SyntaxError
          end
      end end end end
  end.

(** JSON.parse: the parsed value, or None where JavaScript throws a
    SyntaxError. *)
Definition JSON_parse (s : string) : option JsValue :=
  let t := text_of s in
  match parse_value (S (length t)) t with
  | Ok v r => match skip_ws r with [] => Some v | _ => None end
  | _ => None
  end.

(** A numeric literal of the source text. *)
Definition literal (s : string) : JsNumber :=
  match parse_number (text_of s) with
  | Some (x, []) => x
  | _ => NaN
  end.

(** ** The platform around the component *)

(** A settled promise. *)
Inductive outcome (A : Type) : Type :=
| Resolved (a : A)
| Rejected.
Arguments Resolved {A} a.
Arguments Rejected {A}.

(** The [coords] of the LocationObject of a position fix. *)
Record LocationCoords : Set := {
  coords_latitude : JsNumber;
  coords_longitude : JsNumber
}.

(** What the device answers during one interaction: the status of the
    foreground permission request, the position fix, and whether the
    calls to AsyncStorage resolve. *)
Record Device : Type := {
  permission : outcome string;
  position : outcome LocationCoords;
  storage_up : bool
}.

(** A map region (react-native-maps's Region); its fields hold whatever
    the expressions of the source evaluate to. *)
Record Region : Type := {
  latitude : JsValue;
  longitude : JsValue;
  latitudeDelta : JsValue;
  longitudeDelta : JsValue
}.

(** What an awaited call or JSON.parse throws. *)
Inductive Error : Set :=
| JsonSyntaxError
| StorageError
| LocationError.

(** The calls that leave the component, in the order they are made. *)
Inductive Event : Type :=
| RequestForegroundPermissions
| GetCurrentPosition
| GetItem (key : string)
| SetItem (key value : string)
| RemoveItem (key : string)
| Alert (title message : string)
| ConsoleLog (message : string) (error : Error)
| AnimateToRegion (region : Region) (duration : Z).

(** The component's state ([marker], [loading]), the store of
    AsyncStorage, the region the mounted MapView shows (None while no
    map is mounted), and the calls made so far. *)
Record State : Type := {
  marker : JsValue;
  loading : bool;
  storage : gmap string string;
  viewport : option Region;
  trace : list Event
}.

(** How the body of an async function ends: it returns, or it throws
    (the promise is rejected). *)
Inductive completion (A : Type) : Type :=
| Returns (a : A)
| Throws (e : Error).
Arguments Returns {A} a.
Arguments Throws {A} e.

Definition Async (A : Type) : Type := State -> completion A * State.

Definition ret {A} (a : A) : Async A := fun st => (Returns a, st).
Definition throw {A} (e : Error) : Async A := fun st => (Throws e, st).
Definition bind {A B} (m : Async A) (k : A -> Async B) : Async B :=
  fun st =>
    match m st with
    | (Returns a, st') => k a st'
    | (Throws e, st') => (Throws e, st')
    end.

Notation "'do' x <- m ; k" := (bind m (fun x => k))
  (at level 10, x name, m at level 100, k at level 200).
Notation "'run' m ; k" := (bind m (fun _ => k))
  (at level 10, m at level 100, k at level 200).

Definition try_catch {A} (body : Async A) (handler : Error -> Async A) : Async A :=
  fun st =>
    match body st with
    | (Returns a, st') => (Returns a, st')
    | (Throws e, st') => handler e st'
    end.

Definition try_finally {A} (body : Async A) (finalizer : Async unit) : Async A :=
  fun st =>
    match body st with
    | (r, st') =>
        match finalizer st' with
        | (Returns _, st'') => (r, st'')
        | (Throws e, st'') => (Throws e, st'')
        end
    end.

Definition emit (e : Event) : Async unit :=
  fun st =>
    (Returns tt,
     {| marker := marker st; loading := loading st; storage := storage st;
        viewport := viewport st; trace := trace st ++ [e] |}).

Definition setMarker (v : JsValue) : Async unit :=
  fun st =>
    (Returns tt,
     {| marker := v; loading := loading st; storage := storage st;
        viewport := viewport st; trace := trace st |}).

Definition setLoading (b : bool) : Async unit :=
  fun st =>
    (Returns tt,
     {| marker := marker st; loading := b; storage := storage st;
        viewport := viewport st; trace := trace st |}).

Definition set_storage (f : gmap string string -> gmap string string) : Async unit :=
  fun st =>
    (Returns tt,
     {| marker := marker st; loading := loading st; storage := f (storage st);
        viewport := viewport st; trace := trace st |}).

Definition get_storage : Async (gmap string string) :=
  fun st => (Returns (storage st), st).

(** AsyncStorage.getItem: the stored string or null. *)
Definition AsyncStorage_getItem (dev : Device) (key : string) : Async (option string) :=
  run emit (GetItem key);
  if storage_up dev then do store <- get_storage; ret (store !! key)
  else throw StorageError.

(** AsyncStorage.setItem; the value is what JSON.stringify returned,
    which is undefined (None) for a value that has no JSON text. *)
Definition AsyncStorage_setItem (dev : Device) (key : string) (value : option string)
  : Async unit :=
  match value with
  | None => throw StorageError
  | Some v =>
      run emit (SetItem key v);
      if storage_up dev then set_storage (insert key v)
      else throw StorageError
  end.

Definition AsyncStorage_removeItem (dev : Device) (key : string) : Async unit :=
  run emit (RemoveItem key);
  if storage_up dev then set_storage (delete key)
  else throw StorageError.

Definition Location_requestForegroundPermissionsAsync (dev : Device) : Async string :=
  run emit RequestForegroundPermissions;
  match permission dev with
  | Resolved status => ret status
  | Rejected => throw LocationError
  end.

Definition Location_getCurrentPositionAsync (dev : Device) : Async LocationCoords :=
  run emit GetCurrentPosition;
  match position dev with
  | Resolved c => ret c
  | Rejected => throw LocationError
  end.

Definition Alert_alert (title message : string) : Async unit :=
  emit (Alert title message).

Definition console_log (message : string) (error : Error) : Async unit :=
  emit (ConsoleLog message error).

(** JSON.parse as a call that may throw. *)
Definition JSON_parse_call (json : string) : Async JsValue :=
  match JSON_parse json with
  | Some v => ret v
  | None => throw JsonSyntaxError
  end.

(** [mapRef.current?.animateToRegion(region, duration)]: nothing happens
    while no map is mounted; otherwise the map ends on [region]. *)
Definition animateToRegion (region : Region) (duration : Z) : Async unit :=
  fun st =>
    match viewport st with
    | None => (Returns tt, st)
    | Some _ =>
        (Returns tt,
         {| marker := marker st; loading := loading st; storage := storage st;
            viewport := Some region;
            trace := trace st ++ [AnimateToRegion region duration] |})
    end.

(** ** The component

    app/(tabs)/_layout.tsx; app/app.tsx has the same [loadMarker],
    [handleSetMarker] and [initialRegion], and neither
    [handleRemoveMarker] nor [centerMapOnUser]. *)

Definition coordinate (lat lon : JsNumber) : JsValue :=
  Obj [("latitude"%string, Num lat); ("longitude"%string, Num lon)].

Definition loadMarker (dev : Device) : Async unit :=
  try_finally
    (try_catch
       (do json <- AsyncStorage_getItem dev "marker";
        match json with
        | Some text_ =>            (* [if (json)] on a string *)
            if truthy (Str text_) then
              do parsed <- JSON_parse_call text_;
              setMarker parsed
            else ret tt
        | None => ret tt           (* [if (json)] on null *)
        end)
       (fun e => console_log "Error al cargar marcador:" e))
    (setLoading false).

Definition permisos_denegados : string := "Permisos denegados".
Definition se_necesita_acceso : string := "Se necesita acceso a la ubicación.".

Definition handleSetMarker (dev : Device) : Async unit :=
  do status <- Location_requestForegroundPermissionsAsync dev;
  if negb (String.eqb status "granted") then
    Alert_alert permisos_denegados se_necesita_acceso
  else
    do location <- Location_getCurrentPositionAsync dev;
    let coords := coordinate (coords_latitude location) (coords_longitude location) in
    run setMarker coords;
    AsyncStorage_setItem dev "marker" (JSON_stringify coords).

Definition handleRemoveMarker (dev : Device) : Async unit :=
  run setMarker Null;
  AsyncStorage_removeItem dev "marker".

Definition centerMapOnUser (dev : Device) : Async unit :=
  do status <- Location_requestForegroundPermissionsAsync dev;
  if negb (String.eqb status "granted") then
    Alert_alert permisos_denegados se_necesita_acceso
  else
    do location <- Location_getCurrentPositionAsync dev;
    let coords :=
      {| latitude := Num (coords_latitude location);
         longitude := Num (coords_longitude location);
         latitudeDelta := Num (literal "0.01");
         longitudeDelta := Num (literal "0.01") |} in
    animateToRegion coords 1000.

Definition initialRegion (marker : JsValue) : Region :=
  {| latitude := js_or (optional_get marker "latitude") (Num (literal "40.4168"));
     longitude := js_or (optional_get marker "longitude") (Num (literal "-3.7038"));
     latitudeDelta := Num (literal "0.01");
     longitudeDelta := Num (literal "0.01") |}.

(** What the component renders: the spinner while [loading], otherwise
    the map with its [initialRegion], the Marker when [marker] is truthy,
    and (in _layout.tsx) the remove button under the same condition. *)
Inductive View : Type :=
| LoadingView
| MapScreen (initial : Region) (pin : option JsValue) (removeButton : bool).

Definition render (st : State) : View :=
  if loading st then LoadingView
  else MapScreen (initialRegion (marker st))
                 (if truthy (marker st) then Some (marker st) else None)
                 (truthy (marker st)).

(** React commits the render: a MapView that appears is mounted on its
    [initialRegion]; a mounted one ignores later values of that prop. *)
Definition commit (st : State) : State :=
  match render st, viewport st with
  | MapScreen initial _ _, None =>
      {| marker := marker st; loading := loading st; storage := storage st;
         viewport := Some initial; trace := trace st |}
  | _, _ => st
  end.

(** The state of a fresh screen over the store [store]:
    [useState(null)], [useState(true)], no map yet. *)
Definition fresh (store : gmap string string) : State :=
  {| marker := Null; loading := true; storage := store;
     viewport := None; trace := [] |}.

(** One interaction: the handler runs, React commits. *)
Definition interact (handler : Async unit) (st : State) : completion unit * State :=
  let (r, st') := handler st in (r, commit st').

(** Screen initialization: the first render (the spinner), the effect
    [loadMarker], and the render that follows it. *)
Definition initialize (dev : Device) (store : gmap string string)
  : completion unit * State :=
  interact (loadMarker dev) (commit (fresh store)).

(** app/app.tsx, the plain variant of the screen: the same load, save
    and initial region, no remove and no center-on-me action. *)
Module PlainApp.

Definition loadMarker (dev : Device) : Async unit :=
  try_finally
    (try_catch
       (do json <- AsyncStorage_getItem dev "marker";
        match json with
        | Some text_ =>
            if truthy (Str text_) then
              do parsed <- JSON_parse_call text_;
              setMarker parsed
            else ret tt
        | None => ret tt
        end)
       (fun e => console_log "Error al cargar marcador:" e))
    (setLoading false).

Definition handleSetMarker (dev : Device) : Async unit :=
  do status <- Location_requestForegroundPermissionsAsync dev;
  if negb (String.eqb status "granted") then
    Alert_alert permisos_denegados se_necesita_acceso
  else
    do location <- Location_getCurrentPositionAsync dev;
    let coords := coordinate (coords_latitude location) (coords_longitude location) in
    run setMarker coords;
    AsyncStorage_setItem dev "marker" (JSON_stringify coords).

Definition initialRegion (marker : JsValue) : Region :=
  {| latitude := js_or (optional_get marker "latitude") (Num (literal "40.4168"));
     longitude := js_or (optional_get marker "longitude") (Num (literal "-3.7038"));
     latitudeDelta := Num (literal "0.01");
     longitudeDelta := Num (literal "0.01") |}.

Definition render (st : State) : View :=
  if loading st then LoadingView
  else MapScreen (initialRegion (marker st))
                 (if truthy (marker st) then Some (marker st) else None)
                 false.

End PlainApp.

(** Where a number literal ends: at the end of the text or before a
    character that cannot continue it. *)
Definition number_stop (rest : text) : bool :=
  match rest with
  | [] => true
  | c :: _ =>
      match digit_of_char c with
      | Some _ => false
      | None => match c with "." | "e" | "E" => false | _ => true end
      end
  end.

(** The text JSON.stringify writes for [{latitude, longitude}], given the
    texts of the two numbers. *)
Definition coordinate_text (lat lon : text) : text :=
  "{" :: dquote :: text_of "latitude" ++ dquote :: ":" :: lat
    ++ "," :: dquote :: text_of "longitude" ++ dquote :: ":" :: lon ++ ["}"].

(** A character that a string literal holds as it is. *)
Definition plain_char (c : ascii) : bool :=
  match c with
  | "034" | "092" => false
  | _ => negb (N_of_ascii c <? 32)%N
  end.

(** What JSON.parse makes of the text JSON.stringify wrote for a number. *)
Definition revived (x : JsNumber) : JsValue :=
  if Number_isFinite x then Num x else Null.

(** The representation invariant of a number: canonical digits. *)
Definition wf_number (x : JsNumber) : bool :=
  match x with
  | Dec _ ds _ => canonical ds
  | _ => true
  end.

(** ** Vocabulary of the properties *)

(** The persisted record. *)
Definition persisted (st : State) : option string := storage st !! "marker"%string.

(** The marker a record stands for: none (null) when there is no record,
    otherwise what JSON.parse reads, if it reads anything. *)
Definition decoded (record : option string) : option JsValue :=
  match record with
  | None => Some Null
  | Some s => JSON_parse s
  end.

(** The in-memory marker and the persisted one agree. *)
Definition in_sync (st : State) : Prop := decoded (persisted st) = Some (marker st).

(** The calls a handler makes from the state [st]. *)
Definition calls (handler : Async unit) (st : State) : list Event :=
  skipn (length (trace st)) (trace (snd (handler st))).

(** The state [st] after the calls [es]. *)
Definition after_calls (st : State) (es : list Event) : State :=
  {| marker := marker st; loading := loading st; storage := storage st;
     viewport := viewport st; trace := trace st ++ es |}.

(** The region centred on (lat, lon) at the zoom the screen uses. *)
Definition region_at (lat lon : JsNumber) : Region :=
  {| latitude := Num lat; longitude := Num lon;
     latitudeDelta := Num (literal "0.01");
     longitudeDelta := Num (literal "0.01") |}.

Definition fallback_latitude : JsNumber := literal "40.4168".
Definition fallback_longitude : JsNumber := literal "-3.7038".

Definition denied_alert : Event := Alert permisos_denegados se_necesita_acceso.

(** A device on which every call succeeds, with the fix at (lat, lon). *)
Definition device_at (lat lon : JsNumber) : Device :=
  {| permission := Resolved "granted"%string;
     position := Resolved {| coords_latitude := lat; coords_longitude := lon |};
     storage_up := true |}.

(** A device that answers the permission request with [status]. *)
Definition device_with_status (status : string) : Device :=
  {| permission := Resolved status;
     position := Resolved {| coords_latitude := literal "1"; coords_longitude := literal "2" |};
     storage_up := true |}.

(** The screen once the map is mounted: marker [m], the map on the
    initial region computed from [m]. *)
Definition mounted (m : JsValue) (store : gmap string string) (events : list Event)
  : State :=
  {| marker := m; loading := false; storage := store;
     viewport := Some (initialRegion m); trace := events |}.

Definition load_error (e : Error) : Event := ConsoleLog "Error al cargar marcador:" e.

(** An action stopped at the permission check: it returns, with the
    component, the store and the map as they were, after exactly the
    permission request and the alert. *)
Definition aborted_unchanged (handler : Async unit) (st : State) : Prop :=
  fst (handler st) = Returns tt /\
  marker (snd (handler st)) = marker st /\
  loading (snd (handler st)) = loading st /\
  storage (snd (handler st)) = storage st /\
  viewport (snd (handler st)) = viewport st /\
  calls handler st = [RequestForegroundPermissions; denied_alert].

(** The two mutations of the marker. *)
Inductive Mutation : Set := SetMutation | ClearMutation.

Definition mutate (m : Mutation) (dev : Device) : Async unit :=
  match m with
  | SetMutation => handleSetMarker dev
  | ClearMutation => handleRemoveMarker dev
  end.

(** The coordinates of the device's fix, if it has one, are finite. *)
Definition finite_fix (dev : Device) : bool :=
  match position dev with
  | Resolved c => finite (coords_latitude c) && finite (coords_longitude c)
  | Rejected => true
  end.

(** The record JSON.stringify writes for the coordinate whose numbers
    have the texts [lat] and [lon]. *)
Definition record_of (lat lon : string) : string :=
  string_of (coordinate_text (text_of lat) (text_of lon)).

(** ** Concrete devices, stores and states *)

Definition one : JsNumber := literal "1".
Definition two : JsNumber := literal "2".
Definition ten : JsNumber := literal "10".
Definition twenty : JsNumber := literal "20".

Definition denied_device : Device := device_with_status "denied".

(** A device on which every call of AsyncStorage is rejected. *)
Definition storage_down_device : Device :=
  {| permission := Resolved "granted"%string;
     position := Resolved {| coords_latitude := one; coords_longitude := two |};
     storage_up := false |}.

(** The store with the record of the coordinate (1, 2), and the screen
    showing that marker. *)
Definition store_1_2 : gmap string string :=
  {[ "marker"%string := record_of "1" "2" ]}.
Definition screen_1_2 : State := mounted (coordinate one two) store_1_2 [GetItem "marker"].

(** The store with the record [{latitude: 0, longitude: 20}]. *)
Definition store_0_20 : gmap string string :=
  {[ "marker"%string := record_of "0" "20" ]}.

(** Stores whose record is not a coordinate. *)
Definition store_of (record : string) : gmap string string :=
  {[ "marker"%string := record ]}.

(** ** Sessions

    What the user can do once the screen is up.  A control exists only
    in the view that [render] returns: none while the spinner is shown,
    and the remove button only with a truthy marker. *)

Inductive Action : Set := TapSave | TapRemove | TapCenter.

Definition handler_of (a : Action) (dev : Device) : Async unit :=
  match a with
  | TapSave => handleSetMarker dev
  | TapRemove => handleRemoveMarker dev
  | TapCenter => centerMapOnUser dev
  end.

(** The control of the action is on the screen. *)
Definition offered (a : Action) (st : State) : bool :=
  match render st with
  | LoadingView => false
  | MapScreen _ _ removeButton =>
      match a with
      | TapRemove => removeButton
      | TapSave | TapCenter => true
      end
  end.

(** A tap on the control of [a], answered by the device [dev]; a tap on
    a control that is not on the screen does nothing. *)
Definition tap (a : Action) (dev : Device) (st : State) : State :=
  if offered a st then snd (interact (handler_of a dev) st) else st.

Fixpoint session (taps : list (Action * Device)) (st : State) : State :=
  match taps with
  | [] => st
  | (a, dev) :: rest => session rest (tap a dev st)
  end.

(** The screen after its initialization over the store [store]. *)
Definition launch (dev : Device) (store : gmap string string) : State :=
  snd (initialize dev store).

(** The map is mounted and the spinner is gone. *)
Definition map_mounted (st : State) : Prop := loading st = false /\ viewport st <> None.

(** A session of app/app.tsx: its only control is the save button. *)
Definition plain_offered (st : State) : bool :=
  match PlainApp.render st with
  | LoadingView => false
  | MapScreen _ _ _ => true
  end.

Definition plain_tap (dev : Device) (st : State) : State :=
  if plain_offered st then snd (interact (PlainApp.handleSetMarker dev) st) else st.

Fixpoint plain_session (taps : list Device) (st : State) : State :=
  match taps with
  | [] => st
  | dev :: rest => plain_session rest (plain_tap dev st)
  end.

(** The device answers every tap of the session with working storage
    and, where it has a fix, finite coordinates. *)
Definition sound_device (dev : Device) : bool := storage_up dev && finite_fix dev.

(** A marker of the declared type [Coordinate | null], with finite
    numbers. *)
Definition coordinate_or_null (v : JsValue) : Prop :=
  v = Null \/
  exists lat lon, finite lat = true /\ finite lon = true /\ v = coordinate lat lon.

(** A store as the application itself leaves it: no record, or the
    record of a coordinate of finite numbers. *)
Definition own_record (store : gmap string string) : Prop :=
  store !! "marker"%string = None \/
  exists lat lon,
    finite lat = true /\ finite lon = true /\
    store !! "marker"%string = JSON_stringify (coordinate lat lon).

(** The values of [marker] on which [render] follows the JSX: for
    [null] the expression [marker && <Marker .../>] is [null] and
    nothing is drawn, for an object it is the element.  For a falsy
    value of another type (the number 0, the empty string) the
    expression is that value itself, which would be handed to React
    Native as a child; [render] is not meant for such markers, and the
    statements about what is on the screen are made for null and object
    markers. *)
Definition null_or_object (v : JsValue) : bool :=
  match v with
  | Null | Obj _ => true
  | _ => false
  end.

(** The record under the key [marker], where there is one that
    JSON.parse reads, is that of [null] or of an object. *)
Definition object_record (store : gmap string string) : bool :=
  match store !! "marker"%string with
  | None => true
  | Some s =>
      match JSON_parse s with
      | Some v => null_or_object v
      | None => true
      end
  end.

(** ** The side menu (app/(tabs)/_layout.tsx)

    [menuVisible] and the Animated value [slideAnim].  Of an animation
    on [slideAnim] the model keeps where it leads, [slideTo] (the value
    of [new Animated.Value(width)] at first), and the callback given to
    [start]; the frames in between and the 300 ms are not modelled.  An
    Animated value runs one animation at a time: [start] first stops
    the animation that is running on the value, and an animation that
    ends or is stopped calls its callback, once and at that moment
    (with [finished: false] when it was stopped).  The window width and
    the product of two doubles are parameters. *)

(** The callback given to [start]: none in [openMenu], and in
    [closeMenu] the function [() => { setMenuVisible(false); }], which
    does not look at [finished]. *)
Inductive Callback : Set := NoCallback | HideMenu.

Record Menu : Set := {
  menuVisible : bool;
  slideTo : JsNumber;
  running : option Callback
}.

Section Window.
Variable width : JsNumber.
Variable times : JsNumber -> JsNumber -> JsNumber.

Definition closed_menu : Menu :=
  {| menuVisible := false; slideTo := width; running := None |}.

Definition setMenuVisible (b : bool) (m : Menu) : Menu :=
  {| menuVisible := b; slideTo := slideTo m; running := running m |}.

Definition call (callback : Callback) (m : Menu) : Menu :=
  match callback with
  | NoCallback => m
  | HideMenu => setMenuVisible false m
  end.

(** The running animation ends or is stopped: the value has no
    animation any more and the callback is called. *)
Definition animation_over (m : Menu) : Menu :=
  match running m with
  | None => m
  | Some callback =>
      call callback
        {| menuVisible := menuVisible m; slideTo := slideTo m; running := None |}
  end.

(** [Animated.timing(slideAnim, {toValue, ...}).start(callback)]: the
    animation that is running on [slideAnim] is stopped, then the new
    one runs. *)
Definition start_timing (toValue : JsNumber) (callback : Callback) (m : Menu) : Menu :=
  let stopped := animation_over m in
  {| menuVisible := menuVisible stopped; slideTo := toValue;
     running := Some callback |}.

Definition openMenu (m : Menu) : Menu :=
  start_timing (times width (literal "0.4")) NoCallback (setMenuVisible true m).

Definition closeMenu (m : Menu) : Menu :=
  start_timing width HideMenu m.

Inductive MenuEvent : Set := TapMenuButton | TapOverlay | AnimationEnds.

(** The menu button is in the header; the overlay, whose press closes
    the menu, and the close button exist while [menuVisible]. *)
Definition menu_step (e : MenuEvent) (m : Menu) : Menu :=
  match e with
  | TapMenuButton => openMenu m
  | TapOverlay => if menuVisible m then closeMenu m else m
  | AnimationEnds => animation_over m
  end.

Definition menu_run (events : list MenuEvent) (m : Menu) : Menu :=
  fold_left (fun m e => menu_step e m) events m.

(** The events that do not open the menu. *)
Definition not_opening (e : MenuEvent) : bool :=
  match e with
  | TapMenuButton => false
  | TapOverlay | AnimationEnds => true
  end.

(** While the menu is closing: the panel is on its way to [width] or
    there, and the menu is hidden as soon as no animation runs. *)
Definition closing (m : Menu) : Prop :=
  slideTo m = width /\
  (running m = Some HideMenu \/ (running m = None /\ menuVisible m = false)).

End Window.

(** A window 400 wide, the open menu at rest in it, and a product that
    is right at [400 * 0.4]. *)
Definition width_400 : JsNumber := literal "400".
Definition times_400 (a b : JsNumber) : JsNumber := literal "160".
Definition open_menu_400 : Menu :=
  {| menuVisible := true; slideTo := literal "160"; running := None |}.

(** * Properties *)

(** ** Digits and number literals *)

Lemma digit_of_char_of_digit (d : digit) : digit_of_char (char_of_digit d) = Some d.
Proof. destruct d; reflexivity. Qed.

Lemma chars_of_digits_app (a b : list digit) :
  chars_of_digits (a ++ b) = chars_of_digits a ++ chars_of_digits b.
Proof. apply map_app. Qed.

Lemma chars_of_zeros (m : nat) : chars_of_digits (repeat D0 m) = repeat "0" m.
Proof. induction m as [|m IH]; simpl; [reflexivity | now rewrite <- IH]. Qed.

Lemma number_stop_no_digit (rest : text) :
  number_stop rest = true ->
  match rest with [] => True | c :: _ => digit_of_char c = None end.
Proof.
  destruct rest as [|c r]; [trivial|]. simpl.
  destruct (digit_of_char c); [discriminate | reflexivity].
Qed.

Lemma span_digits_chars (ds : list digit) (rest : text) :
  match rest with [] => True | c :: _ => digit_of_char c = None end ->
  span_digits (chars_of_digits ds ++ rest) = (ds, rest).
Proof.
  intros Hrest. induction ds as [|d ds IH]; simpl.
  - destruct rest as [|c r]; [reflexivity|]. simpl. now rewrite Hrest.
  - rewrite digit_of_char_of_digit. fold (chars_of_digits ds). now rewrite IH.
Qed.

Lemma strip_leading_zeros_repeat (m : nat) (ds : list digit) (p : Z) :
  strip_leading_zeros (repeat D0 m ++ ds) p = strip_leading_zeros ds (p - Z.of_nat m).
Proof.
  revert p. induction m as [|m IH]; intros p.
  - simpl. f_equal. lia.
  - cbn [repeat app strip_leading_zeros]. rewrite IH. f_equal. lia.
Qed.

Lemma strip_leading_zeros_head (d : digit) (ds : list digit) (p : Z) :
  is_zero_digit d = false -> strip_leading_zeros (d :: ds) p = (d :: ds, p).
Proof. destruct d; simpl; intros H; (discriminate || reflexivity). Qed.

Lemma canonical_head (ds : list digit) :
  canonical ds = true -> exists d ds', ds = d :: ds' /\ is_zero_digit d = false.
Proof.
  destruct ds as [|d ds']; simpl; [discriminate|]. intros H.
  apply andb_true_iff in H as [H _]. exists d, ds'. split; [reflexivity|].
  now destruct (is_zero_digit d).
Qed.

Lemma canonical_last (ds : list digit) :
  canonical ds = true -> is_zero_digit (List.last ds D0) = false.
Proof.
  destruct ds as [|d ds']; [discriminate|]. unfold canonical. intros H.
  apply andb_true_iff in H as [_ H]. now destruct (is_zero_digit _).
Qed.

Lemma rev_repeat_digit (m : nat) : rev (repeat D0 m) = repeat D0 m.
Proof.
  induction m as [|m IH]; [reflexivity|]. simpl. rewrite IH.
  clear IH. induction m as [|m IH]; [reflexivity|]. simpl. now rewrite IH.
Qed.

Lemma last_rev_head (ds : list digit) (d0 : digit) :
  ds <> [] -> exists r, rev ds = List.last ds d0 :: r.
Proof.
  intros Hne. destruct (exists_last Hne) as [l [x ->]].
  rewrite rev_app_distr. simpl. rewrite last_last. now exists (rev l).
Qed.

Lemma strip_trailing_zeros_canonical (ds : list digit) (m : nat) :
  canonical ds = true -> strip_trailing_zeros (ds ++ repeat D0 m) = ds.
Proof.
  intros Hc. unfold strip_trailing_zeros.
  rewrite rev_app_distr, rev_repeat_digit, strip_leading_zeros_repeat.
  assert (Hne : ds <> []) by (destruct ds; [discriminate | congruence]).
  destruct (last_rev_head ds D0 Hne) as [r Hr]. rewrite Hr.
  rewrite strip_leading_zeros_head by now apply canonical_last.
  cbn [fst]. rewrite <- Hr. apply rev_involutive.
Qed.

Lemma make_number_canonical (neg : bool) (ds : list digit) (lead trail : nat) (p : Z) :
  canonical ds = true ->
  make_number neg (repeat D0 lead ++ ds ++ repeat D0 trail) p
  = Dec neg ds (p - Z.of_nat lead).
Proof.
  intros Hc. unfold make_number. rewrite strip_leading_zeros_repeat.
  destruct (canonical_head ds Hc) as [d [ds' [-> Hd]]].
  cbn [app]. rewrite strip_leading_zeros_head by exact Hd.
  change (d :: ds' ++ repeat D0 trail) with ((d :: ds') ++ repeat D0 trail).
  now rewrite strip_trailing_zeros_canonical.
Qed.

Lemma N_of_digits_acc (u : Decimal.uint) (acc : positive) :
  fold_left (fun a d => (10 * a + N_of_digit d)%N) (digits_of_uint u) (Npos acc)
  = Npos (Pos.of_uint_acc u acc).
Proof.
  revert acc. induction u; intros acc; cbn [digits_of_uint fold_left Pos.of_uint_acc];
    try reflexivity;
    match goal with
    | |- fold_left _ _ ?a = _ =>
        match goal with
        | |- _ = Npos (Pos.of_uint_acc _ ?b) =>
            replace a with (Npos b) by (cbn [N_of_digit]; lia)
        end
    end; apply IHu.
Qed.

Lemma N_of_digits_uint (u : Decimal.uint) :
  N_of_digits (digits_of_uint u) = Pos.of_uint u.
Proof.
  unfold N_of_digits.
  induction u; cbn [digits_of_uint fold_left Pos.of_uint]; try reflexivity;
    try exact IHu; apply (N_of_digits_acc u 1) || idtac.
  all: match goal with
       | |- fold_left _ _ ?a = Npos (Pos.of_uint_acc _ ?b) =>
           change a with (Npos b); apply N_of_digits_acc
       end.
Qed.

Lemma N_of_digits_of_N (n : N) : N_of_digits (digits_of_N n) = n.
Proof.
  destruct n as [|p]; [reflexivity|].
  unfold digits_of_N. rewrite N_of_digits_uint.
  apply DecimalPos.Unsigned.of_to.
Qed.

Lemma digits_of_N_not_nil (n : N) : digits_of_N n <> [].
Proof.
  destruct n as [|p]; [discriminate|]. unfold digits_of_N.
  intros H. pose proof (N_of_digits_of_N (Npos p)) as E.
  unfold digits_of_N in E. rewrite H in E. discriminate.
Qed.

Lemma parse_int_chars (d : digit) (ds : list digit) (rest : text) :
  is_zero_digit d = false ->
  match rest with [] => True | c :: _ => digit_of_char c = None end ->
  parse_int (chars_of_digits (d :: ds) ++ rest) = Some (d :: ds, rest).
Proof.
  intros Hd Hrest.
  pose proof (span_digits_chars (d :: ds) rest Hrest) as Hspan.
  destruct d; try discriminate Hd;
    cbn [chars_of_digits map char_of_digit app] in *;
    unfold parse_int; cbv iota; now rewrite Hspan.
Qed.

Lemma parse_frac_chars (d : digit) (ds : list digit) (rest : text) :
  match rest with [] => True | c :: _ => digit_of_char c = None end ->
  parse_frac ("." :: chars_of_digits (d :: ds) ++ rest) = Some (d :: ds, rest).
Proof.
  intros Hrest. unfold parse_frac. cbv iota.
  now rewrite span_digits_chars.
Qed.

Lemma parse_frac_stop (rest : text) :
  number_stop rest = true -> parse_frac rest = Some ([], rest).
Proof.
  destruct rest as [|c r]; [reflexivity|].
  destruct c as [[] [] [] [] [] [] [] []]; cbn; (discriminate || reflexivity).
Qed.

Lemma parse_exp_stop (rest : text) :
  number_stop rest = true -> parse_exp rest = Some (0, rest).
Proof.
  destruct rest as [|c r]; [reflexivity|].
  destruct c as [[] [] [] [] [] [] [] []]; cbn; (discriminate || reflexivity).
Qed.

Lemma parse_exp_digits_chars (neg : bool) (a : N) (rest : text) :
  match rest with [] => True | c :: _ => digit_of_char c = None end ->
  parse_exp_digits neg (chars_of_digits (digits_of_N a) ++ rest)
  = Some (if neg then - Z.of_N a else Z.of_N a, rest).
Proof.
  intros Hrest. unfold parse_exp_digits. rewrite span_digits_chars by exact Hrest.
  pose proof (digits_of_N_not_nil a) as Hne.
  destruct (digits_of_N a) as [|d ds] eqn:E; [congruence|].
  rewrite <- E, N_of_digits_of_N. reflexivity.
Qed.

Lemma parse_exp_chars (e : Z) (rest : text) :
  match rest with [] => True | c :: _ => digit_of_char c = None end ->
  parse_exp ("e" :: (if e <? 0 then "-" else "+")
               :: chars_of_digits (digits_of_N (Z.abs_N e)) ++ rest)
  = Some (e, rest).
Proof.
  intros Hrest. unfold parse_exp. cbv iota.
  destruct (e <? 0) eqn:He; cbv iota; rewrite parse_exp_digits_chars by exact Hrest;
    f_equal; f_equal; rewrite N2Z.inj_abs_N; lia.
Qed.

Lemma parse_unsigned_parts (neg : bool) (int frac : list digit) (e : Z)
      (s s1 s2 s3 : text) :
  parse_int s = Some (int, s1) ->
  parse_frac s1 = Some (frac, s2) ->
  parse_exp s2 = Some (e, s3) ->
  parse_unsigned neg s
  = Some (make_number neg (int ++ frac) (Z.of_nat (length int) + e), s3).
Proof. intros H1 H2 H3. unfold parse_unsigned. now rewrite H1, H2, H3. Qed.

Lemma make_number_plain (neg : bool) (ds : list digit) (p : Z) :
  canonical ds = true -> make_number neg ds p = Dec neg ds p.
Proof.
  intros Hc. pose proof (make_number_canonical neg ds 0 0 p Hc) as H.
  cbn [repeat app] in H. rewrite app_nil_r in H. rewrite H. f_equal. lia.
Qed.

(** Reading back what [digits_toString] wrote. *)
Lemma parse_unsigned_digits_toString (neg : bool) (ds : list digit) (n : Z) (rest : text) :
  canonical ds = true ->
  number_stop rest = true ->
  parse_unsigned neg (digits_toString ds n ++ rest) = Some (Dec neg ds n, rest).
Proof.
  intros Hc Hstop.
  pose proof (number_stop_no_digit rest Hstop) as Hnd.
  destruct (canonical_head ds Hc) as [d [ds' [Eds Hd]]].
  unfold digits_toString.
  destruct ((Z.of_nat (length ds) <=? n) && (n <=? 21)) eqn:C1; cbv iota.
  { (* an integer: the digits, then zeros *)
    apply andb_true_iff in C1 as [Hk _]. apply Z.leb_le in Hk.
    set (m := Z.to_nat (n - Z.of_nat (length ds))).
    rewrite <- chars_of_zeros, <- chars_of_digits_app.
    erewrite parse_unsigned_parts;
      [ | subst ds; cbn [app]; apply parse_int_chars; [exact Hd | exact Hnd]
        | apply parse_frac_stop; exact Hstop
        | apply parse_exp_stop; exact Hstop ].
    f_equal. f_equal. rewrite app_nil_r.
    pose proof (make_number_canonical neg ds 0 m) as H. cbn [repeat app] in H.
    subst ds. cbn [app] in *. rewrite H by exact Hc. f_equal.
    rewrite length_cons, length_app, repeat_length.
    cbn [length] in Hk. subst m. cbn [length]. lia. }
  destruct ((0 <? n) && (n <=? 21)) eqn:C2; cbv iota.
  { (* a decimal point inside the digits *)
    apply andb_true_iff in C2 as [Hpos Hle]. apply Z.ltb_lt in Hpos.
    rewrite Hle, andb_true_r in C1. apply Z.leb_gt in C1.
    assert (Hn : (Z.to_nat n < length ds)%nat) by lia.
    destruct (Z.to_nat n) as [|j] eqn:Ej; [lia|].
    destruct (skipn (S j) ds) as [|f fs] eqn:Eskip.
    { apply (f_equal (@length digit)) in Eskip. rewrite length_skipn in Eskip.
      cbn [length] in Eskip. lia. }
    rewrite <- app_assoc. cbn [app].
    erewrite parse_unsigned_parts;
      [ | subst ds; cbn [firstn]; apply parse_int_chars; [exact Hd | reflexivity]
        | apply parse_frac_chars; exact Hnd
        | apply parse_exp_stop; exact Hstop ].
    f_equal. f_equal. subst ds. cbn [firstn].
    rewrite <- Eskip.
    change (d :: firstn j ds') with (firstn (S j) (d :: ds')).
    rewrite firstn_skipn, length_firstn.
    rewrite make_number_plain by exact Hc. f_equal. lia. }
  destruct ((-6 <? n) && (n <=? 0)) eqn:C3; cbv iota.
  { (* a fraction below one: 0. and zeros before the digits *)
    apply andb_true_iff in C3 as [_ Hle]. apply Z.leb_le in Hle.
    set (m := Z.to_nat (- n)).
    rewrite <- chars_of_zeros.
    change ("0" :: "." :: chars_of_digits (repeat D0 m) ++ chars_of_digits ds)
      with ("0" :: "." :: (chars_of_digits (repeat D0 m) ++ chars_of_digits ds)).
    rewrite <- chars_of_digits_app.
    destruct (repeat D0 m ++ ds) as [|f fs] eqn:Efrac.
    { subst ds. destruct (repeat D0 m); discriminate. }
    erewrite parse_unsigned_parts;
      [ | cbn [app]; reflexivity
        | apply parse_frac_chars; exact Hnd
        | apply parse_exp_stop; exact Hstop ].
    f_equal. f_equal. rewrite <- Efrac.
    pose proof (make_number_canonical neg ds (S m) 0) as H.
    cbn [repeat app] in H. rewrite app_nil_r in H. cbn [app].
    rewrite H by exact Hc. f_equal. subst m. cbn [length]. lia. }
  (* scientific notation *)
  subst ds. destruct ds' as [|f fs].
  - change (char_of_digit d :: "e" :: ?x) with (chars_of_digits [d] ++ "e" :: x).
    cbn [app].
    erewrite parse_unsigned_parts;
      [ | apply (parse_int_chars d [] _ Hd); reflexivity
        | reflexivity
        | apply parse_exp_chars; exact Hnd ].
    f_equal. f_equal. rewrite app_nil_r.
    rewrite make_number_plain by exact Hc. f_equal. cbn [length]. lia.
  - cbn [app]. rewrite <- app_assoc. cbn [app].
    erewrite parse_unsigned_parts;
      [ | apply (parse_int_chars d [] _ Hd); reflexivity
        | apply parse_frac_chars; reflexivity
        | apply parse_exp_chars; exact Hnd ].
    f_equal. f_equal. cbn [app].
    rewrite make_number_plain by exact Hc. f_equal. cbn [length]. lia.
Qed.

Lemma parse_number_unsigned (s : text) (r : JsNumber * text) :
  parse_unsigned false s = Some r -> parse_number s = Some r.
Proof.
  destruct s as [|c t]; [trivial|].
  destruct c as [[] [] [] [] [] [] [] []]; try (intros H; exact H).
  unfold parse_unsigned, parse_int. cbn. discriminate.
Qed.

(** JSON.parse reads back the text of a finite number. *)
Lemma parse_number_toString (x : JsNumber) (rest : text) :
  finite x = true ->
  number_stop rest = true ->
  parse_number (Number_toString x ++ rest) = Some (x, rest).
Proof.
  intros Hfin Hstop. destruct x as [| neg | | neg ds n]; try discriminate Hfin.
  - apply parse_number_unsigned. cbn [Number_toString app].
    erewrite parse_unsigned_parts;
      [ | reflexivity | apply parse_frac_stop; exact Hstop
        | apply parse_exp_stop; exact Hstop ].
    reflexivity.
  - cbn [finite] in Hfin. cbn [Number_toString]. destruct neg.
    + cbn [app parse_number]. cbv iota.
      now apply parse_unsigned_digits_toString.
    + apply parse_number_unsigned. now apply parse_unsigned_digits_toString.
Qed.

Lemma parse_value_number (fuel : nat) (s : text) (x : JsNumber) (r : text) :
  parse_number s = Some (x, r) -> parse_value (S fuel) s = Ok (Num x) r.
Proof.
  destruct s as [|c t]; [discriminate|].
  destruct c as [[] [] [] [] [] [] [] []]; intros H;
    try (cbn in H; discriminate H);
    cbn [parse_value skip_ws is_ws strip_prefix text_of list_ascii_of_string
         Ascii.eqb Bool.eqb];
    cbv iota zeta; now rewrite H.
Qed.

(** The numeric literals of the source. *)
Example literal_fallback_latitude :
  literal "40.4168" = Dec false [D4; D0; D4; D1; D6; D8] 2 /\
  Number_toString (literal "40.4168") = text_of "40.4168".
Proof. split; reflexivity. Qed.

Example literal_fallback_longitude :
  literal "-3.7038" = Dec true [D3; D7; D0; D3; D8] 1 /\
  Number_toString (literal "-3.7038") = text_of "-3.7038".
Proof. split; reflexivity. Qed.

Example literal_delta :
  literal "0.01" = Dec false [D1] (-1) /\
  Number_toString (literal "0.01") = text_of "0.01".
Proof. split; reflexivity. Qed.

Example Number_toString_exponents :
  Number_toString (Dec false [D1] 22) = text_of "1e+21" /\
  Number_toString (Dec false [D1] 21) = text_of "100000000000000000000" /\
  Number_toString (Dec false [D1; D2; D3] (-6)) = text_of "1.23e-7" /\
  Number_toString (Dec true [D1; D2; D3] (-5)) = text_of "-0.00000123".
Proof. repeat split. Qed.

(** ** JSON.stringify and JSON.parse on a coordinate *)

Lemma serialize_coordinate (lat lon : JsNumber) :
  serialize (coordinate lat lon)
  = Some (coordinate_text (number_text lat) (number_text lon)).
Proof.
  cbn. unfold coordinate_text. cbn. f_equal. f_equal. f_equal.
  rewrite <- !app_assoc. cbn. reflexivity.
Qed.

Lemma text_of_string_of (t : text) : text_of (string_of t) = t.
Proof. apply list_ascii_of_string_of_list_ascii. Qed.

Lemma parse_members_S (value : text -> parsed JsValue) (n : nat)
      (acc : list (string * JsValue)) (s : text) :
  parse_members value (S n) acc s
  = match skip_ws s with
    | "034" :: s1 =>
        match scan_string Plain [] s1 with
        | Ok k s2 =>
            match skip_ws s2 with
            | ":" :: s3 =>
                match value s3 with
                | Ok v r =>
                    match skip_ws r with
                    | "," :: r' => parse_members value n (obj_set k v acc) r'
                    | "}" :: r' => Ok (Obj (obj_set k v acc)) r'
                    | _ => SyntaxError
                    end
                | SyntaxError => SyntaxError
                | OutOfFuel => OutOfFuel
                end
            | _ => SyntaxError
            end
        | _ => SyntaxError
        end
    | _ => SyntaxError
    end.
Proof. reflexivity. Qed.

Lemma scan_string_plain (key acc rest : text) :
  forallb plain_char key = true ->
  scan_string Plain acc (key ++ "034" :: rest)
  = Ok (string_of (rev acc ++ key)) rest.
Proof.
  revert acc. induction key as [|c key IH]; intros acc Hplain.
  - cbn [app scan_string]. now rewrite app_nil_r.
  - cbn [forallb] in Hplain. apply andb_true_iff in Hplain as [Hc Hkey].
    cbn [app]. specialize (IH (c :: acc) Hkey).
    cbn [rev] in IH. rewrite <- app_assoc in IH. cbn [app] in IH.
    rewrite <- IH. clear IH.
    destruct c as [[] [] [] [] [] [] [] []]; try discriminate Hc; reflexivity.
Qed.

(** One member [key : value] of an object, with a key that needs no
    escape. *)
Lemma parse_members_plain (value : text -> parsed JsValue) (n : nat)
      (acc : list (string * JsValue)) (key s3 r : text) (v : JsValue) :
  forallb plain_char key = true ->
  value s3 = Ok v r ->
  parse_members value (S n) acc ("034" :: key ++ "034" :: ":" :: s3)
  = match skip_ws r with
    | "," :: r' => parse_members value n (obj_set (string_of key) v acc) r'
    | "}" :: r' => Ok (Obj (obj_set (string_of key) v acc)) r'
    | _ => SyntaxError
    end.
Proof.
  intros Hkey Hv. rewrite parse_members_S.
  cbn [skip_ws is_ws]. cbv iota.
  rewrite scan_string_plain by exact Hkey.
  cbn [skip_ws is_ws rev app]. cbv iota. now rewrite Hv.
Qed.

(** JSON.parse on the text of a coordinate whose two number texts read
    back as [x] and [y]. *)
Lemma parse_value_coordinate_text (fuel : nat) (t1 t2 : text) (x y : JsValue) :
  (forall rest, number_stop rest = true ->
                parse_value (S fuel) (t1 ++ rest) = Ok x rest) ->
  (forall rest, number_stop rest = true ->
                parse_value (S fuel) (t2 ++ rest) = Ok y rest) ->
  parse_value (S (S fuel)) (coordinate_text t1 t2)
  = Ok (Obj [("latitude"%string, x); ("longitude"%string, y)]) [].
Proof.
  intros H1 H2. unfold coordinate_text, dquote.
  change (parse_value (S (S fuel)) ("{" :: ?r))
    with (parse_members (parse_value (S fuel)) (S (length r)) [] r).
  cbn [length app].
  erewrite parse_members_plain; [ | reflexivity | apply H1; reflexivity ].
  cbn [skip_ws is_ws]. cbv iota.
  change (S (length (text_of "latitude" ++ ?X))) with (S (S (7 + length X))).
  erewrite parse_members_plain; [ | reflexivity | apply H2; reflexivity ].
  reflexivity.
Qed.

Lemma parse_value_number_text (fuel : nat) (x : JsNumber) (rest : text) :
  wf_number x = true ->
  number_stop rest = true ->
  parse_value (S fuel) (number_text x ++ rest) = Ok (revived x) rest.
Proof.
  intros Hwf Hstop. unfold number_text, revived.
  destruct (Number_isFinite x) eqn:Hfin.
  - apply parse_value_number, parse_number_toString; [|exact Hstop].
    destruct x; try discriminate Hfin; [reflexivity | exact Hwf].
  - reflexivity.
Qed.

Lemma finite_wf (x : JsNumber) : finite x = true -> wf_number x = true.
Proof. destruct x; trivial. Qed.

Lemma finite_revived (x : JsNumber) : finite x = true -> revived x = Num x.
Proof. destruct x; try discriminate; reflexivity. Qed.

(** What is read back from the text written for [{latitude, longitude}]. *)
Lemma JSON_parse_stringify_coordinate (lat lon : JsNumber) :
  wf_number lat = true ->
  wf_number lon = true ->
  exists s,
    JSON_stringify (coordinate lat lon) = Some s /\
    s <> ""%string /\
    JSON_parse s
    = Some (Obj [("latitude"%string, revived lat); ("longitude"%string, revived lon)]).
Proof.
  intros Hlat Hlon. unfold JSON_stringify. rewrite serialize_coordinate.
  eexists. split; [reflexivity|]. split; [discriminate|].
  unfold JSON_parse. cbn [option_map]. rewrite text_of_string_of.
  change (length (coordinate_text ?a ?b))
    with (S (length (tl (coordinate_text a b)))).
  rewrite (parse_value_coordinate_text _ _ _ (revived lat) (revived lon)).
  - reflexivity.
  - intros rest Hrest. now apply parse_value_number_text.
  - intros rest Hrest. now apply parse_value_number_text.
Qed.

(** JSON.parse(JSON.stringify(c)) is c for a coordinate of finite numbers. *)
Lemma JSON_roundtrip_coordinate (lat lon : JsNumber) :
  finite lat = true ->
  finite lon = true ->
  exists s,
    JSON_stringify (coordinate lat lon) = Some s /\
    s <> ""%string /\
    JSON_parse s = Some (coordinate lat lon).
Proof.
  intros Hlat Hlon.
  destruct (JSON_parse_stringify_coordinate lat lon) as [s [H1 [H2 H3]]];
    try now apply finite_wf.
  exists s. repeat split; try assumption.
  now rewrite H3, !finite_revived.
Qed.

(** ** JSON.parse never runs out of fuel

    Every parser consumes what it reads, so the nesting depth of a text
    is below its length, and the None of [JSON_parse] is always a
    SyntaxError. *)

Lemma skip_ws_length (s : text) : (length (skip_ws s) <= length s)%nat.
Proof.
  induction s as [|c s IH]; cbn [skip_ws]; [lia|].
  destruct (is_ws c); cbn [length]; lia.
Qed.

Lemma strip_prefix_length (p s r : text) :
  strip_prefix p s = Some r -> (length r + length p = length s)%nat.
Proof.
  revert s. induction p as [|c p IH]; intros s; cbn [strip_prefix].
  - intros [= ->]. cbn [length]. lia.
  - destruct s as [|c' s]; [discriminate|].
    destruct (Ascii.eqb c c'); [|discriminate].
    intros H. apply IH in H. cbn [length]. lia.
Qed.

Lemma scan_string_length (m : string_mode) (acc s : text) (k : string) (r : text) :
  scan_string m acc s = Ok k r -> (length r < length s)%nat.
Proof.
  revert m acc. induction s as [|c s IH]; intros m acc; cbn [scan_string]; [discriminate|].
  assert (Hrec : forall m' acc', scan_string m' acc' s = Ok k r ->
                                 (length r < length (c :: s))%nat)
    by (intros m' acc' H; apply IH in H; cbn [length]; lia).
  destruct m as [| | more code].
  - destruct c as [[] [] [] [] [] [] [] []];
      try (destruct (N_of_ascii _ <? 32)%N; [discriminate | apply Hrec]);
      try apply Hrec.
    intros [= _ ->]. cbn [length]. lia.
  - destruct c as [[] [] [] [] [] [] [] []]; try discriminate; apply Hrec.
  - destruct (hex_value c); [|discriminate]. destruct more; apply Hrec.
Qed.

Lemma scan_string_fuel (m : string_mode) (acc s : text) :
  scan_string m acc s <> OutOfFuel.
Proof.
  revert m acc. induction s as [|c s IH]; intros m acc; cbn [scan_string]; [discriminate|].
  destruct m as [| | more code].
  - destruct c as [[] [] [] [] [] [] [] []];
      try (destruct (N_of_ascii _ <? 32)%N; [discriminate | apply IH]);
      try apply IH.
    discriminate.
  - destruct c as [[] [] [] [] [] [] [] []]; try discriminate; apply IH.
  - destruct (hex_value c); [|discriminate]. destruct more; apply IH.
Qed.

Lemma span_digits_length (s : text) :
  (length (fst (span_digits s)) + length (snd (span_digits s)) = length s)%nat.
Proof.
  induction s as [|c s IH]; cbn [span_digits]; [reflexivity|].
  destruct (digit_of_char c); [|reflexivity].
  destruct (span_digits s) as [ds r]. cbn [fst snd length] in *. lia.
Qed.

Lemma parse_int_length (s : text) (ds : list digit) (r : text) :
  parse_int s = Some (ds, r) -> (length r < length s)%nat.
Proof.
  unfold parse_int. pose proof (span_digits_length s) as Hspan.
  destruct (span_digits s) as [[|d ds'] r'] eqn:E; cbn [fst snd length] in Hspan.
  - destruct s as [|c s']; [discriminate|].
    destruct c as [[] [] [] [] [] [] [] []]; try discriminate.
    intros [= _ <-]. cbn [length]. lia.
  - destruct s as [|c s']; [discriminate|].
    destruct c as [[] [] [] [] [] [] [] []]; intros [= _ <-]; cbn [length] in *; lia.
Qed.

Lemma parse_frac_length (s : text) (ds : list digit) (r : text) :
  parse_frac s = Some (ds, r) -> (length r <= length s)%nat.
Proof.
  unfold parse_frac. destruct s as [|c s']; [intros [= _ <-]; lia|].
  pose proof (span_digits_length s') as Hspan.
  destruct (span_digits s') as [[|d ds'] r'] eqn:E; cbn [fst snd length] in Hspan;
    destruct c as [[] [] [] [] [] [] [] []]; try discriminate;
    intros [= _ <-]; cbn [length]; lia.
Qed.

Lemma parse_exp_digits_length (neg : bool) (s : text) (e : Z) (r : text) :
  parse_exp_digits neg s = Some (e, r) -> (length r <= length s)%nat.
Proof.
  unfold parse_exp_digits. pose proof (span_digits_length s) as Hspan.
  destruct (span_digits s) as [[|d ds'] r']; cbn [fst snd length] in Hspan;
    [discriminate|]. intros [= _ <-]. lia.
Qed.

Lemma parse_exp_length (s : text) (e : Z) (r : text) :
  parse_exp s = Some (e, r) -> (length r <= length s)%nat.
Proof.
  unfold parse_exp. destruct s as [|c s']; [intros [= _ <-]; lia|].
  assert (Hsign : match s' with
                  | "+" :: s'' => parse_exp_digits false s''
                  | "-" :: s'' => parse_exp_digits true s''
                  | _ => parse_exp_digits false s'
                  end = Some (e, r) -> (length r <= length (c :: s'))%nat).
  { destruct s' as [|c' s'']; [discriminate|].
    destruct c' as [[] [] [] [] [] [] [] []]; intros H;
      apply parse_exp_digits_length in H; cbn [length] in *; lia. }
  destruct c as [[] [] [] [] [] [] [] []]; try exact Hsign;
    intros [= _ <-]; lia.
Qed.

Lemma parse_unsigned_length (neg : bool) (s : text) (x : JsNumber) (r : text) :
  parse_unsigned neg s = Some (x, r) -> (length r < length s)%nat.
Proof.
  unfold parse_unsigned.
  destruct (parse_int s) as [[int s1]|] eqn:E1; [|discriminate].
  destruct (parse_frac s1) as [[frac s2]|] eqn:E2; [|discriminate].
  destruct (parse_exp s2) as [[e s3]|] eqn:E3; [|discriminate].
  intros [= _ <-].
  apply parse_int_length in E1. apply parse_frac_length in E2.
  apply parse_exp_length in E3. lia.
Qed.

Lemma parse_number_length (s : text) (x : JsNumber) (r : text) :
  parse_number s = Some (x, r) -> (length r < length s)%nat.
Proof.
  unfold parse_number. destruct s as [|c s']; [discriminate|].
  destruct c as [[] [] [] [] [] [] [] []]; intros H;
    apply parse_unsigned_length in H; cbn [length] in *; lia.
Qed.

Section ContainerFacts.
Variable value : text -> parsed JsValue.
Hypothesis value_length :
  forall s v r, value s = Ok v r -> (length r < length s)%nat.

Lemma parse_elements_length (n : nat) (acc : list JsValue) (s : text)
      (v : JsValue) (r : text) :
  parse_elements value n acc s = Ok v r -> (length r < length s)%nat.
Proof.
  revert acc s. induction n as [|n IH]; intros acc s; cbn [parse_elements];
    [discriminate|].
  destruct (value s) as [v1 r1| |] eqn:E; try discriminate.
  apply value_length in E. pose proof (skip_ws_length r1) as Hws.
  destruct (skip_ws r1) as [|c r']; [discriminate|]. cbn [length] in Hws.
  destruct c as [[] [] [] [] [] [] [] []]; try discriminate;
    first [ intros [= _ <-]; lia | intros H; apply IH in H; lia ].
Qed.

Lemma parse_members_length (n : nat) (acc : list (string * JsValue)) (s : text)
      (v : JsValue) (r : text) :
  parse_members value n acc s = Ok v r -> (length r < length s)%nat.
Proof.
  revert acc s. induction n as [|n IH]; intros acc s; cbn [parse_members];
    [discriminate|].
  pose proof (skip_ws_length s) as Hws0.
  destruct (skip_ws s) as [|c0 s1]; [discriminate|]. cbn [length] in Hws0.
  destruct c0 as [[] [] [] [] [] [] [] []]; try discriminate.
  destruct (scan_string Plain [] s1) as [k s2| |] eqn:Ek; try discriminate.
  apply scan_string_length in Ek.
  pose proof (skip_ws_length s2) as Hws2.
  destruct (skip_ws s2) as [|c2 s3]; [discriminate|]. cbn [length] in Hws2.
  destruct c2 as [[] [] [] [] [] [] [] []]; try discriminate.
  destruct (value s3) as [v1 r1| |] eqn:E; try discriminate.
  apply value_length in E. pose proof (skip_ws_length r1) as Hws.
  destruct (skip_ws r1) as [|c r']; [discriminate|]. cbn [length] in Hws.
  destruct c as [[] [] [] [] [] [] [] []]; try discriminate;
    first [ intros [= _ <-]; lia | intros H; apply IH in H; lia ].
Qed.

Lemma parse_elements_fuel (n : nat) (acc : list JsValue) (s : text) :
  (forall s', (length s' <= length s)%nat -> value s' <> OutOfFuel) ->
  (length s < n)%nat ->
  parse_elements value n acc s <> OutOfFuel.
Proof.
  revert acc s. induction n as [|n IH]; intros acc s Hvalue Hn; [lia|].
  cbn [parse_elements].
  destruct (value s) as [v1 r1| |] eqn:E; try discriminate.
  - pose proof (value_length _ _ _ E) as Hlen.
    pose proof (skip_ws_length r1) as Hws.
    destruct (skip_ws r1) as [|c r']; [discriminate|]. cbn [length] in Hws.
    destruct c as [[] [] [] [] [] [] [] []]; try discriminate.
    apply IH; [|lia]. intros s' Hs'. apply Hvalue. lia.
  - exfalso. now apply (Hvalue s).
Qed.

Lemma parse_members_fuel (n : nat) (acc : list (string * JsValue)) (s : text) :
  (forall s', (length s' <= length s)%nat -> value s' <> OutOfFuel) ->
  (length s < n)%nat ->
  parse_members value n acc s <> OutOfFuel.
Proof.
  revert acc s. induction n as [|n IH]; intros acc s Hvalue Hn; [lia|].
  cbn [parse_members].
  pose proof (skip_ws_length s) as Hws0.
  destruct (skip_ws s) as [|c0 s1]; [discriminate|]. cbn [length] in Hws0.
  destruct c0 as [[] [] [] [] [] [] [] []]; try discriminate.
  destruct (scan_string Plain [] s1) as [k s2| |] eqn:Ek; try discriminate.
  apply scan_string_length in Ek.
  pose proof (skip_ws_length s2) as Hws2.
  destruct (skip_ws s2) as [|c2 s3]; [discriminate|]. cbn [length] in Hws2.
  destruct c2 as [[] [] [] [] [] [] [] []]; try discriminate.
  destruct (value s3) as [v1 r1| |] eqn:E; try discriminate.
  - pose proof (value_length _ _ _ E) as Hlen.
    pose proof (skip_ws_length r1) as Hws.
    destruct (skip_ws r1) as [|c r']; [discriminate|]. cbn [length] in Hws.
    destruct c as [[] [] [] [] [] [] [] []]; try discriminate.
    apply IH; [|lia]. intros s' Hs'. apply Hvalue. lia.
  - exfalso. apply (Hvalue s3); [lia | exact E].
Qed.
End ContainerFacts.

Lemma parse_value_length (fuel : nat) (s : text) (v : JsValue) (r : text) :
  parse_value fuel s = Ok v r -> (length r < length s)%nat.
Proof.
  revert s v r. induction fuel as [|fuel IH]; intros s v r; cbn [parse_value];
    [discriminate|].
  cbv zeta. pose proof (skip_ws_length s) as Hws.
  destruct (strip_prefix (text_of "null") (skip_ws s)) as [r0|] eqn:E1.
  { intros [= _ <-]. apply strip_prefix_length in E1. cbn in E1. lia. }
  destruct (strip_prefix (text_of "true") (skip_ws s)) as [r0|] eqn:E2.
  { intros [= _ <-]. apply strip_prefix_length in E2. cbn in E2. lia. }
  destruct (strip_prefix (text_of "false") (skip_ws s)) as [r0|] eqn:E3.
  { intros [= _ <-]. apply strip_prefix_length in E3. cbn in E3. lia. }
  clear E1 E2 E3.
  assert (Hnum : match parse_number (skip_ws s) with
                 | Some (x, r0) => Ok (Num x) r0
                 | None => SyntaxError
                 end = Ok v r -> (length r < length s)%nat).
  { destruct (parse_number (skip_ws s)) as [[x r0]|] eqn:E; [|discriminate].
    intros [= _ <-]. apply parse_number_length in E. lia. }
  destruct (skip_ws s) as [|c t] eqn:Es; [exact Hnum|]. cbn [length] in Hws.
  destruct c as [[] [] [] [] [] [] [] []]; try exact Hnum; clear Hnum;
    lazymatch goal with
    | |- context [scan_string] =>
        (* a string *)
        destruct (scan_string Plain [] t) as [k r0| |] eqn:E; try discriminate;
        intros [= _ <-]; apply scan_string_length in E; lia
    | |- context [parse_elements] =>
        (* an array *)
        pose proof (skip_ws_length t) as Hwt;
        assert (Hloop : parse_elements (parse_value fuel) (S (length t)) [] t = Ok v r ->
                        (length r < length s)%nat)
          by (intros H; apply parse_elements_length in H; [lia | exact IH]);
        destruct (skip_ws t) as [|c' t']; [exact Hloop|]; cbn [length] in Hwt;
        destruct c' as [[] [] [] [] [] [] [] []]; try exact Hloop;
        intros [= _ <-]; lia
    | |- context [parse_members] =>
        (* an object *)
        pose proof (skip_ws_length t) as Hwt;
        assert (Hloop : parse_members (parse_value fuel) (S (length t)) [] t = Ok v r ->
                        (length r < length s)%nat)
          by (intros H; apply parse_members_length in H; [lia | exact IH]);
        destruct (skip_ws t) as [|c' t']; [exact Hloop|]; cbn [length] in Hwt;
        destruct c' as [[] [] [] [] [] [] [] []]; try exact Hloop;
        intros [= _ <-]; lia
    end.
Qed.

Lemma parse_value_fuel (fuel : nat) (s : text) :
  (length s < fuel)%nat -> parse_value fuel s <> OutOfFuel.
Proof.
  revert s. induction fuel as [|fuel IH]; intros s Hfuel; [lia|].
  cbn [parse_value]. cbv zeta. pose proof (skip_ws_length s) as Hws.
  destruct (strip_prefix (text_of "null") (skip_ws s)); [discriminate|].
  destruct (strip_prefix (text_of "true") (skip_ws s)); [discriminate|].
  destruct (strip_prefix (text_of "false") (skip_ws s)); [discriminate|].
  assert (Hnum : match parse_number (skip_ws s) with
                 | Some (x, r0) => Ok (Num x) r0
                 | None => SyntaxError
                 end <> @OutOfFuel JsValue)
    by (destruct (parse_number (skip_ws s)) as [[x r0]|]; discriminate).
  destruct (skip_ws s) as [|c t] eqn:Es; [exact Hnum|]. cbn [length] in Hws.
  destruct c as [[] [] [] [] [] [] [] []]; try exact Hnum; clear Hnum;
    lazymatch goal with
    | |- context [scan_string] => destruct (scan_string Plain [] t); discriminate
    | |- context [parse_elements] =>
        assert (Hloop : parse_elements (parse_value fuel) (S (length t)) [] t
                        <> OutOfFuel)
          by (apply parse_elements_fuel;
              [apply parse_value_length | intros s' Hs'; apply IH; lia | lia]);
        destruct (skip_ws t) as [|c' t']; [exact Hloop|];
        destruct c' as [[] [] [] [] [] [] [] []]; try exact Hloop; discriminate
    | |- context [parse_members] =>
        assert (Hloop : parse_members (parse_value fuel) (S (length t)) [] t
                        <> OutOfFuel)
          by (apply parse_members_fuel;
              [apply parse_value_length | intros s' Hs'; apply IH; lia | lia]);
        destruct (skip_ws t) as [|c' t']; [exact Hloop|];
        destruct c' as [[] [] [] [] [] [] [] []]; try exact Hloop; discriminate
    end.
Qed.

(** The fuel [JSON_parse] gives is enough: it returns None only where
    the text is not a JSON text followed by white space. *)
Lemma JSON_parse_fuel (s : string) :
  parse_value (S (length (text_of s))) (text_of s) <> OutOfFuel.
Proof. apply parse_value_fuel. lia. Qed.

(** ** The handlers, case by case *)

Lemma after_calls_app (st : State) (a b : list Event) :
  after_calls (after_calls st a) b = after_calls st (a ++ b).
Proof. unfold after_calls. cbn. now rewrite <- app_assoc. Qed.

Lemma emit_after (e : Event) (st : State) : emit e st = (Returns tt, after_calls st [e]).
Proof. reflexivity. Qed.

Lemma stringify_coordinate_some (lat lon : JsNumber) :
  JSON_stringify (coordinate lat lon)
  = Some (string_of (coordinate_text (number_text lat) (number_text lon))).
Proof. unfold JSON_stringify. now rewrite serialize_coordinate. Qed.

(** The status is not 'granted': an alert, and nothing else. *)
Lemma handleSetMarker_not_granted (dev : Device) (st : State) (status : string) :
  permission dev = Resolved status ->
  status <> "granted"%string ->
  handleSetMarker dev st
  = (Returns tt, after_calls st [RequestForegroundPermissions; denied_alert]).
Proof.
  intros Hp Hs. apply String.eqb_neq in Hs.
  unfold handleSetMarker, Location_requestForegroundPermissionsAsync, bind.
  rewrite emit_after, Hp. cbn [ret]. rewrite Hs. cbn [negb].
  unfold Alert_alert. rewrite emit_after, after_calls_app. reflexivity.
Qed.

Lemma centerMapOnUser_not_granted (dev : Device) (st : State) (status : string) :
  permission dev = Resolved status ->
  status <> "granted"%string ->
  centerMapOnUser dev st
  = (Returns tt, after_calls st [RequestForegroundPermissions; denied_alert]).
Proof.
  intros Hp Hs. apply String.eqb_neq in Hs.
  unfold centerMapOnUser, Location_requestForegroundPermissionsAsync, bind.
  rewrite emit_after, Hp. cbn [ret]. rewrite Hs. cbn [negb].
  unfold Alert_alert. rewrite emit_after, after_calls_app. reflexivity.
Qed.

(** The permission request itself is rejected. *)
Lemma handleSetMarker_permission_rejected (dev : Device) (st : State) :
  permission dev = Rejected ->
  handleSetMarker dev st
  = (Throws LocationError, after_calls st [RequestForegroundPermissions]).
Proof.
  intros Hp.
  unfold handleSetMarker, Location_requestForegroundPermissionsAsync, bind.
  now rewrite emit_after, Hp.
Qed.

Lemma centerMapOnUser_permission_rejected (dev : Device) (st : State) :
  permission dev = Rejected ->
  centerMapOnUser dev st
  = (Throws LocationError, after_calls st [RequestForegroundPermissions]).
Proof.
  intros Hp.
  unfold centerMapOnUser, Location_requestForegroundPermissionsAsync, bind.
  now rewrite emit_after, Hp.
Qed.

(** Granted, and the fix fails: the handler throws before it touches the
    marker. *)
Lemma handleSetMarker_no_fix (dev : Device) (st : State) :
  permission dev = Resolved "granted"%string ->
  position dev = Rejected ->
  handleSetMarker dev st
  = (Throws LocationError,
     after_calls st [RequestForegroundPermissions; GetCurrentPosition]).
Proof.
  intros Hp Hfix.
  unfold handleSetMarker, Location_requestForegroundPermissionsAsync,
    Location_getCurrentPositionAsync, bind.
  rewrite emit_after, Hp. cbn [ret String.eqb Ascii.eqb Bool.eqb negb].
  rewrite emit_after, Hfix. cbn [throw]. now rewrite after_calls_app.
Qed.

(** Granted, with a fix: the marker is set, then written. *)
Lemma handleSetMarker_granted (dev : Device) (st : State) (lat lon : JsNumber) :
  permission dev = Resolved "granted"%string ->
  position dev = Resolved {| coords_latitude := lat; coords_longitude := lon |} ->
  let record := string_of (coordinate_text (number_text lat) (number_text lon)) in
  handleSetMarker dev st
  = if storage_up dev then
      (Returns tt,
       {| marker := coordinate lat lon; loading := loading st;
          storage := <["marker"%string := record]> (storage st);
          viewport := viewport st;
          trace := trace st ++ [RequestForegroundPermissions; GetCurrentPosition;
                                SetItem "marker" record] |})
    else
      (Throws StorageError,
       {| marker := coordinate lat lon; loading := loading st;
          storage := storage st;
          viewport := viewport st;
          trace := trace st ++ [RequestForegroundPermissions; GetCurrentPosition;
                                SetItem "marker" record] |}).
Proof.
  intros Hp Hfix record.
  unfold handleSetMarker, Location_requestForegroundPermissionsAsync,
    Location_getCurrentPositionAsync, bind.
  rewrite emit_after, Hp. cbn [ret String.eqb Ascii.eqb Bool.eqb negb].
  rewrite emit_after, Hfix. cbn [ret coords_latitude coords_longitude].
  rewrite stringify_coordinate_some. fold record.
  unfold setMarker, AsyncStorage_setItem, bind. rewrite emit_after.
  unfold after_calls. cbn [marker loading storage viewport trace].
  rewrite <- !app_assoc. cbn [app].
  destruct (storage_up dev); reflexivity.
Qed.

Lemma handleRemoveMarker_result (dev : Device) (st : State) :
  handleRemoveMarker dev st
  = if storage_up dev then
      (Returns tt,
       {| marker := Null; loading := loading st;
          storage := delete "marker"%string (storage st);
          viewport := viewport st;
          trace := trace st ++ [RemoveItem "marker"] |})
    else
      (Throws StorageError,
       {| marker := Null; loading := loading st; storage := storage st;
          viewport := viewport st;
          trace := trace st ++ [RemoveItem "marker"] |}).
Proof.
  unfold handleRemoveMarker, setMarker, AsyncStorage_removeItem, bind.
  rewrite emit_after. destruct (storage_up dev); reflexivity.
Qed.

Lemma centerMapOnUser_no_fix (dev : Device) (st : State) :
  permission dev = Resolved "granted"%string ->
  position dev = Rejected ->
  centerMapOnUser dev st
  = (Throws LocationError,
     after_calls st [RequestForegroundPermissions; GetCurrentPosition]).
Proof.
  intros Hp Hfix.
  unfold centerMapOnUser, Location_requestForegroundPermissionsAsync,
    Location_getCurrentPositionAsync, bind.
  rewrite emit_after, Hp. cbn [ret String.eqb Ascii.eqb Bool.eqb negb].
  rewrite emit_after, Hfix. cbn [throw]. now rewrite after_calls_app.
Qed.

Lemma centerMapOnUser_granted (dev : Device) (st : State) (lat lon : JsNumber) :
  permission dev = Resolved "granted"%string ->
  position dev = Resolved {| coords_latitude := lat; coords_longitude := lon |} ->
  centerMapOnUser dev st
  = (Returns tt,
     match viewport st with
     | None => after_calls st [RequestForegroundPermissions; GetCurrentPosition]
     | Some _ =>
         {| marker := marker st; loading := loading st; storage := storage st;
            viewport := Some (region_at lat lon);
            trace := trace st ++ [RequestForegroundPermissions; GetCurrentPosition;
                                  AnimateToRegion (region_at lat lon) 1000] |}
     end).
Proof.
  intros Hp Hfix.
  unfold centerMapOnUser, Location_requestForegroundPermissionsAsync,
    Location_getCurrentPositionAsync, bind.
  rewrite emit_after, Hp. cbn [ret String.eqb Ascii.eqb Bool.eqb negb].
  rewrite emit_after, Hfix. cbn [ret coords_latitude coords_longitude].
  rewrite after_calls_app. unfold animateToRegion, after_calls, region_at.
  cbn [marker loading storage viewport trace app].
  destruct (viewport st); [|reflexivity].
  rewrite <- app_assoc. reflexivity.
Qed.

(** ** Loading, case by case *)

(** AsyncStorage rejects the read: logged, no marker installed. *)
Lemma loadMarker_unreadable (dev : Device) (st : State) :
  storage_up dev = false ->
  loadMarker dev st
  = (Returns tt,
     {| marker := marker st; loading := false; storage := storage st;
        viewport := viewport st;
        trace := trace st ++ [GetItem "marker"; load_error StorageError] |}).
Proof.
  intros Hup.
  unfold loadMarker, try_finally, try_catch, AsyncStorage_getItem, bind.
  rewrite emit_after, Hup. cbn [throw]. unfold console_log.
  rewrite emit_after, after_calls_app. reflexivity.
Qed.

(** No record, or the empty string: nothing is parsed. *)
Lemma loadMarker_falsy (dev : Device) (st : State) :
  storage_up dev = true ->
  persisted st = None \/ persisted st = Some ""%string ->
  loadMarker dev st
  = (Returns tt,
     {| marker := marker st; loading := false; storage := storage st;
        viewport := viewport st; trace := trace st ++ [GetItem "marker"] |}).
Proof.
  intros Hup Hrec.
  unfold loadMarker, try_finally, try_catch, AsyncStorage_getItem, bind.
  rewrite emit_after, Hup. unfold get_storage.
  cbn [ret after_calls storage]. unfold persisted in Hrec.
  destruct Hrec as [-> | ->]; reflexivity.
Qed.

(** A non-empty record on which JSON.parse throws: logged. *)
Lemma loadMarker_syntax_error (dev : Device) (st : State) (s : string) :
  storage_up dev = true ->
  persisted st = Some s ->
  s <> ""%string ->
  JSON_parse s = None ->
  loadMarker dev st
  = (Returns tt,
     {| marker := marker st; loading := false; storage := storage st;
        viewport := viewport st;
        trace := trace st ++ [GetItem "marker"; load_error JsonSyntaxError] |}).
Proof.
  intros Hup Hrec Hne Hparse. apply String.eqb_neq in Hne.
  unfold loadMarker, try_finally, try_catch, AsyncStorage_getItem, bind.
  rewrite emit_after, Hup. unfold get_storage.
  cbn [ret after_calls storage]. unfold persisted in Hrec. rewrite Hrec.
  cbn [truthy]. rewrite Hne. cbn [negb].
  unfold JSON_parse_call. rewrite Hparse. cbn [throw].
  unfold console_log. rewrite emit_after. unfold after_calls.
  cbn [marker loading storage viewport trace setLoading].
  now rewrite <- app_assoc.
Qed.

(** A non-empty record that JSON.parse reads: its value becomes the
    marker, whatever its shape. *)
Lemma loadMarker_parsed (dev : Device) (st : State) (s : string) (v : JsValue) :
  storage_up dev = true ->
  persisted st = Some s ->
  s <> ""%string ->
  JSON_parse s = Some v ->
  loadMarker dev st
  = (Returns tt,
     {| marker := v; loading := false; storage := storage st;
        viewport := viewport st; trace := trace st ++ [GetItem "marker"] |}).
Proof.
  intros Hup Hrec Hne Hparse. apply String.eqb_neq in Hne.
  unfold loadMarker, try_finally, try_catch, AsyncStorage_getItem, bind.
  rewrite emit_after, Hup. unfold get_storage.
  cbn [ret after_calls storage]. unfold persisted in Hrec. rewrite Hrec.
  cbn [truthy]. rewrite Hne. cbn [negb].
  unfold JSON_parse_call. rewrite Hparse. reflexivity.
Qed.

(** The load never throws. *)
Lemma loadMarker_returns (dev : Device) (st : State) :
  fst (loadMarker dev st) = Returns tt /\ loading (snd (loadMarker dev st)) = false.
Proof.
  destruct (storage_up dev) eqn:Hup.
  - destruct (persisted st) as [s|] eqn:Hrec.
    + destruct (String.eqb_spec s "") as [-> | Hne].
      * rewrite loadMarker_falsy; auto.
      * destruct (JSON_parse s) as [v|] eqn:Hparse.
        -- erewrite loadMarker_parsed; eauto.
        -- erewrite loadMarker_syntax_error; eauto.
    + rewrite loadMarker_falsy; auto.
  - rewrite loadMarker_unreadable; auto.
Qed.

(** Initialization: the load on a fresh screen, then the map mounts on
    the region computed from the marker the load left. *)
Lemma initialize_mounts (dev : Device) (store : gmap string string) :
  initialize dev store
  = (Returns tt,
     let st := snd (loadMarker dev (fresh store)) in
     mounted (marker st) (storage st) (trace st)).
Proof.
  unfold initialize, interact. change (commit (fresh store)) with (fresh store).
  pose proof (loadMarker_returns dev (fresh store)) as [Hr Hl].
  destruct (loadMarker dev (fresh store)) as [r st] eqn:E. cbn [fst snd] in *.
  subst r. f_equal. unfold commit, render. rewrite Hl.
  assert (Hv : viewport st = None).
  { clear Hl. revert E. destruct (storage_up dev) eqn:Hup.
    - destruct (persisted (fresh store)) as [s|] eqn:Hrec.
      + destruct (String.eqb_spec s "") as [-> | Hne].
        * rewrite loadMarker_falsy by auto. now intros [= <-].
        * destruct (JSON_parse s) as [v|] eqn:Hparse.
          -- erewrite loadMarker_parsed by eauto. now intros [= <-].
          -- erewrite loadMarker_syntax_error by eauto. now intros [= <-].
      + rewrite loadMarker_falsy by auto. now intros [= <-].
    - rewrite loadMarker_unreadable by auto. now intros [= <-]. }
  rewrite Hv. reflexivity.
Qed.

(** ** Calls *)

Lemma calls_after (handler : Async unit) (st : State) (es : list Event) :
  trace (snd (handler st)) = trace st ++ es -> calls handler st = es.
Proof. intros H. unfold calls. rewrite H. apply drop_app_length. Qed.

Lemma aborted_unchanged_intro (handler : Async unit) (st : State) :
  handler st = (Returns tt, after_calls st [RequestForegroundPermissions; denied_alert]) ->
  aborted_unchanged handler st.
Proof.
  intros H. unfold aborted_unchanged. rewrite (calls_after _ _ _ (f_equal (fun x => trace (snd x)) H)).
  rewrite H. repeat split.
Qed.

(** The calls of the two location actions, in every case: the permission
    request comes first, and the position is asked for only on the
    status 'granted'. *)
Lemma location_action_calls (dev : Device) (st : State) (handler : Async unit) :
  handler = handleSetMarker dev \/ handler = centerMapOnUser dev ->
  exists rest,
    calls handler st = RequestForegroundPermissions :: rest /\
    (permission dev = Resolved "granted"%string ->
     exists rest', rest = GetCurrentPosition :: rest') /\
    (permission dev <> Resolved "granted"%string ->
     ~ In GetCurrentPosition rest).
Proof.
  intros Hh. destruct (permission dev) as [status|] eqn:Hp.
  - destruct (String.eqb_spec status "granted") as [-> | Hne].
    + destruct (position dev) as [[lat lon]|] eqn:Hfix.
      * destruct Hh as [-> | ->].
        -- pose proof (handleSetMarker_granted dev st lat lon Hp Hfix) as E.
           cbv zeta in E.
           destruct (storage_up dev);
             (eexists; split;
              [ apply calls_after; rewrite E; reflexivity
              | split; [intros _; eexists; reflexivity | congruence] ]).
        -- pose proof (centerMapOnUser_granted dev st lat lon Hp Hfix) as E.
           destruct (viewport st);
             (eexists; split;
              [ apply calls_after; rewrite E; reflexivity
              | split; [intros _; eexists; reflexivity | congruence] ]).
      * exists [GetCurrentPosition].
        split; [|split; [intros _; eexists; reflexivity | congruence]].
        apply calls_after. destruct Hh as [-> | ->].
        -- now rewrite handleSetMarker_no_fix.
        -- now rewrite centerMapOnUser_no_fix.
    + exists [denied_alert]. split; [|split].
      * apply calls_after. destruct Hh as [-> | ->].
        -- now rewrite (handleSetMarker_not_granted dev st status).
        -- now rewrite (centerMapOnUser_not_granted dev st status).
      * intros [= ->]. congruence.
      * intros _ [H | []]. discriminate H.
  - exists []. split; [|split].
    + apply calls_after. destruct Hh as [-> | ->].
      * now rewrite handleSetMarker_permission_rejected.
      * now rewrite centerMapOnUser_permission_rejected.
    + discriminate.
    + intros _ [].
Qed.

(** * The claims *)

(** ** Permission *)

(** C5. When the permission request of the save action or of the
    center-on-me action answers a status other than 'granted', the
    action returns with the in-memory marker, the persisted store and
    the viewport unchanged, and its only calls are the permission
    request and the alert: no position fix is requested and nothing is
    written. *)
Theorem denied_permission_aborts (dev : Device) (st : State) (status : string) :
  permission dev = Resolved status ->
  status <> "granted"%string ->
  aborted_unchanged (handleSetMarker dev) st /\
  aborted_unchanged (centerMapOnUser dev) st /\
  (forall handler,
      handler = handleSetMarker dev \/ handler = centerMapOnUser dev ->
      In denied_alert (calls handler st) /\
      ~ In GetCurrentPosition (calls handler st) /\
      forall k v, ~ In (SetItem k v) (calls handler st)).
Proof.
  intros Hp Hs.
  assert (Hset : aborted_unchanged (handleSetMarker dev) st)
    by (apply aborted_unchanged_intro; now apply handleSetMarker_not_granted with status).
  assert (Hcen : aborted_unchanged (centerMapOnUser dev) st)
    by (apply aborted_unchanged_intro; now apply centerMapOnUser_not_granted with status).
  split; [exact Hset|]. split; [exact Hcen|].
  intros handler [-> | ->].
  - destruct Hset as (_ & _ & _ & _ & _ & ->). split; [right; now left|].
    split; [|intros k v]; intros [H | [H | []]]; discriminate H.
  - destruct Hcen as (_ & _ & _ & _ & _ & ->). split; [right; now left|].
    split; [|intros k v]; intros [H | [H | []]]; discriminate H.
Qed.

Lemma denied_permission_aborts_witness :
  (permission denied_device = Resolved "denied"%string /\
   "denied"%string <> "granted"%string) /\
  aborted_unchanged (handleSetMarker denied_device) screen_1_2 /\
  aborted_unchanged (centerMapOnUser denied_device) screen_1_2.
Proof.
  split; [split; [reflexivity | discriminate]|].
  destruct (denied_permission_aborts denied_device screen_1_2 "denied"
              eq_refl ltac:(discriminate)) as [H1 [H2 _]].
  split; [exact H1 | exact H2].
Defined.

(** C10. In the save action and in the center-on-me action the position
    fix is requested only after the permission request has answered
    'granted': if the action asks for the position at all, the status
    was 'granted' and the request for the position directly follows the
    permission request. *)
Theorem position_only_after_granted (dev : Device) (st : State) (handler : Async unit) :
  handler = handleSetMarker dev \/ handler = centerMapOnUser dev ->
  In GetCurrentPosition (calls handler st) ->
  permission dev = Resolved "granted"%string /\
  exists rest,
    calls handler st = RequestForegroundPermissions :: GetCurrentPosition :: rest.
Proof.
  intros Hh Hin.
  destruct (location_action_calls dev st handler Hh) as [rest [Hcalls [Hyes Hno]]].
  assert (Hp : permission dev = Resolved "granted"%string).
  { destruct (permission dev) as [status|] eqn:Hp.
    - destruct (String.eqb_spec status "granted") as [-> | Hne]; [reflexivity|].
      exfalso. rewrite Hcalls in Hin. destruct Hin as [H | H]; [discriminate H|].
      apply Hno; [congruence | exact H].
    - exfalso. rewrite Hcalls in Hin. destruct Hin as [H | H]; [discriminate H|].
      apply Hno; [discriminate | exact H]. }
  split; [exact Hp|]. destruct (Hyes Hp) as [rest' ->]. now exists rest'.
Qed.

Lemma position_only_after_granted_witness :
  In GetCurrentPosition (calls (handleSetMarker (device_at one two)) (mounted Null ∅ [])) /\
  permission (device_at one two) = Resolved "granted"%string /\
  exists rest,
    calls (handleSetMarker (device_at one two)) (mounted Null ∅ [])
    = RequestForegroundPermissions :: GetCurrentPosition :: rest.
Proof.
  split; [vm_compute; right; now left|].
  apply (position_only_after_granted (device_at one two) (mounted Null ∅ [])
           (handleSetMarker (device_at one two)) (or_introl eq_refl)).
  vm_compute. right. now left.
Defined.

(** On a status other than 'granted', and when the permission request
    itself fails, the position-fetch call is not reached. *)
Lemma position_unreachable_without_grant (dev : Device) (st : State) :
  permission dev <> Resolved "granted"%string ->
  ~ In GetCurrentPosition (calls (handleSetMarker dev) st) /\
  ~ In GetCurrentPosition (calls (centerMapOnUser dev) st).
Proof.
  intros Hp. split.
  - destruct (location_action_calls dev st _ (or_introl eq_refl))
      as [rest [-> [_ Hno]]].
    intros [H | H]; [discriminate H | now apply Hno].
  - destruct (location_action_calls dev st _ (or_intror eq_refl))
      as [rest [-> [_ Hno]]].
    intros [H | H]; [discriminate H | now apply Hno].
Qed.

(** ** Initialization *)

(** C3. With no record stored under the key [marker], initialization
    ends the loading state with no in-memory marker and mounts the map
    on (40.4168, -3.7038) with both deltas 0.01. *)
Theorem initialize_without_record (dev : Device) (store : gmap string string) :
  store !! "marker"%string = None ->
  fst (initialize dev store) = Returns tt /\
  marker (snd (initialize dev store)) = Null /\
  loading (snd (initialize dev store)) = false /\
  viewport (snd (initialize dev store))
  = Some {| latitude := Num (literal "40.4168");
            longitude := Num (literal "-3.7038");
            latitudeDelta := Num (literal "0.01");
            longitudeDelta := Num (literal "0.01") |}.
Proof.
  intros Hnone. rewrite initialize_mounts. cbn [fst snd].
  assert (Hm : marker (snd (loadMarker dev (fresh store))) = Null).
  { destruct (storage_up dev) eqn:Hup.
    - now rewrite loadMarker_falsy by (auto; now left).
    - now rewrite loadMarker_unreadable. }
  cbv zeta. unfold mounted. cbn [marker loading viewport]. rewrite Hm.
  repeat split.
Qed.

Lemma initialize_without_record_witness :
  (∅ : gmap string string) !! "marker"%string = None /\
  marker (snd (initialize (device_at one two) ∅)) = Null /\
  viewport (snd (initialize (device_at one two) ∅))
  = Some (region_at fallback_latitude fallback_longitude).
Proof.
  split; [reflexivity|].
  destruct (initialize_without_record (device_at one two) ∅ (lookup_empty _))
    as (_ & Hm & _ & Hv).
  split; [exact Hm | exact Hv].
Defined.

(** ** Removal *)

(** C4 (amended to a removal that completes). When the remove action
    completes, that is when [AsyncStorage.removeItem] resolves, it leaves
    the in-memory marker empty and no record under the key [marker], and
    an initialization that follows yields no marker.  This holds in
    every state, in particular in those that have a marker. *)
Theorem remove_clears_marker (dev dev' : Device) (st : State) :
  fst (handleRemoveMarker dev st) = Returns tt ->
  marker (snd (handleRemoveMarker dev st)) = Null /\
  persisted (snd (handleRemoveMarker dev st)) = None /\
  marker (snd (initialize dev' (storage (snd (handleRemoveMarker dev st))))) = Null.
Proof.
  rewrite handleRemoveMarker_result. destruct (storage_up dev); [|discriminate].
  intros _. cbn [snd marker storage]. unfold persisted. cbn [storage].
  assert (Hgone : delete "marker"%string (storage st) !! "marker"%string = None)
    by apply lookup_delete_eq.
  split; [reflexivity|]. split; [exact Hgone|].
  rewrite initialize_mounts. cbn [snd]. cbv zeta. unfold mounted. cbn [marker].
  destruct (storage_up dev') eqn:Hup.
  - now rewrite loadMarker_falsy by (auto; now left).
  - now rewrite loadMarker_unreadable.
Qed.

Lemma remove_clears_marker_witness :
  (truthy (marker screen_1_2) = true /\
   fst (handleRemoveMarker (device_at one two) screen_1_2) = Returns tt) /\
  marker (snd (handleRemoveMarker (device_at one two) screen_1_2)) = Null /\
  persisted (snd (handleRemoveMarker (device_at one two) screen_1_2)) = None /\
  marker (snd (initialize (device_at one two)
                 (storage (snd (handleRemoveMarker (device_at one two) screen_1_2)))))
  = Null.
Proof.
  split; [split; reflexivity|].
  apply (remove_clears_marker (device_at one two) (device_at one two) screen_1_2).
  reflexivity.
Defined.

(** C4 as stated fails when AsyncStorage rejects the removal: on the
    screen that shows the marker (1, 2) the remove action throws after
    [setMarker(null)], so the in-memory marker is empty but the record
    is still under the key [marker], and the initialization that follows
    yields the marker (1, 2) again. *)
Lemma remove_rejected_record_stays :
  marker screen_1_2 = coordinate one two /\
  persisted screen_1_2 = Some (record_of "1" "2") /\
  fst (handleRemoveMarker storage_down_device screen_1_2) = Throws StorageError /\
  marker (snd (handleRemoveMarker storage_down_device screen_1_2)) = Null /\
  persisted (snd (handleRemoveMarker storage_down_device screen_1_2))
  = Some (record_of "1" "2") /\
  persisted (snd (handleRemoveMarker storage_down_device screen_1_2)) <> None /\
  marker (snd (initialize (device_at one two)
                 (storage (snd (handleRemoveMarker storage_down_device screen_1_2)))))
  = coordinate one two /\
  marker (snd (initialize (device_at one two)
                 (storage (snd (handleRemoveMarker storage_down_device screen_1_2)))))
  <> Null.
Proof.
  assert (Hrec : persisted (snd (handleRemoveMarker storage_down_device screen_1_2))
                 = Some (record_of "1" "2")) by (vm_compute; reflexivity).
  assert (Hback : marker (snd (initialize (device_at one two)
                     (storage (snd (handleRemoveMarker storage_down_device screen_1_2)))))
                  = coordinate one two) by (vm_compute; reflexivity).
  repeat split; try (vm_compute; reflexivity); try exact Hrec; try exact Hback.
  - rewrite Hrec. discriminate.
  - rewrite Hback. discriminate.
Qed.

(** The in-memory marker is cleared even when the removal from the store
    fails; the record then stays. *)
Lemma remove_failed_write (dev : Device) (st : State) :
  storage_up dev = false ->
  fst (handleRemoveMarker dev st) = Throws StorageError /\
  marker (snd (handleRemoveMarker dev st)) = Null /\
  persisted (snd (handleRemoveMarker dev st)) = persisted st.
Proof. intros Hup. rewrite handleRemoveMarker_result, Hup. repeat split. Qed.

(** ** Saving *)

Lemma record_roundtrip (lat lon : JsNumber) :
  finite lat = true ->
  finite lon = true ->
  let record := string_of (coordinate_text (number_text lat) (number_text lon)) in
  record <> ""%string /\ JSON_parse record = Some (coordinate lat lon).
Proof.
  intros Hlat Hlon record.
  destruct (JSON_roundtrip_coordinate lat lon Hlat Hlon) as [s [Hs [Hne Hparse]]].
  rewrite stringify_coordinate_some in Hs. injection Hs as <-. now split.
Qed.

Lemma handleSetMarker_completes (dev : Device) (st : State) (lat lon : JsNumber) :
  permission dev = Resolved "granted"%string ->
  position dev = Resolved {| coords_latitude := lat; coords_longitude := lon |} ->
  fst (handleSetMarker dev st) = Returns tt ->
  storage_up dev = true.
Proof.
  intros Hp Hfix. rewrite (handleSetMarker_granted dev st lat lon Hp Hfix).
  cbv zeta. now destruct (storage_up dev).
Qed.

Lemma handleSetMarker_saved (dev : Device) (st : State) (lat lon : JsNumber) :
  permission dev = Resolved "granted"%string ->
  position dev = Resolved {| coords_latitude := lat; coords_longitude := lon |} ->
  storage_up dev = true ->
  marker (snd (handleSetMarker dev st)) = coordinate lat lon /\
  storage (snd (handleSetMarker dev st))
  = <["marker"%string :=
        string_of (coordinate_text (number_text lat) (number_text lon))]> (storage st).
Proof.
  intros Hp Hfix Hup. rewrite (handleSetMarker_granted dev st lat lon Hp Hfix).
  cbv zeta. rewrite Hup. split; reflexivity.
Qed.

(** C1 (amended to finite coordinates). When the save action is invoked,
    the permission request answers 'granted', the fix succeeds with
    finite coordinates (lat, lon) and the action completes, the
    in-memory marker is (lat, lon) and the record under the key [marker]
    decodes to (lat, lon). *)
Theorem save_sets_and_persists_marker (dev : Device) (st : State) (lat lon : JsNumber) :
  permission dev = Resolved "granted"%string ->
  position dev = Resolved {| coords_latitude := lat; coords_longitude := lon |} ->
  fst (handleSetMarker dev st) = Returns tt ->
  finite lat = true ->
  finite lon = true ->
  marker (snd (handleSetMarker dev st)) = coordinate lat lon /\
  decoded (persisted (snd (handleSetMarker dev st))) = Some (coordinate lat lon).
Proof.
  intros Hp Hfix Hdone Hlat Hlon.
  pose proof (handleSetMarker_completes dev st lat lon Hp Hfix Hdone) as Hup.
  destruct (handleSetMarker_saved dev st lat lon Hp Hfix Hup) as [Hm Hs].
  split; [exact Hm|]. unfold persisted. rewrite Hs, lookup_insert_eq.
  cbn [decoded]. now apply record_roundtrip.
Qed.

Lemma save_sets_and_persists_marker_witness :
  (permission (device_at one two) = Resolved "granted"%string /\
   position (device_at one two)
   = Resolved {| coords_latitude := one; coords_longitude := two |} /\
   fst (handleSetMarker (device_at one two) (mounted Null ∅ [])) = Returns tt /\
   finite one = true /\ finite two = true) /\
  marker (snd (handleSetMarker (device_at one two) (mounted Null ∅ [])))
  = coordinate one two /\
  decoded (persisted (snd (handleSetMarker (device_at one two) (mounted Null ∅ []))))
  = Some (coordinate one two).
Proof.
  split; [repeat split|].
  apply (save_sets_and_persists_marker (device_at one two) (mounted Null ∅ []) one two);
    reflexivity.
Defined.

(** C1 as stated fails on a fix whose latitude is Infinity: the action
    completes and the in-memory marker is (Infinity, 2), but the record
    was written with null for the latitude and does not decode to
    (Infinity, 2).  The same happens with NaN. *)
Lemma save_infinite_fix_not_persisted :
  permission (device_at (Infinity false) two) = Resolved "granted"%string /\
  position (device_at (Infinity false) two)
  = Resolved {| coords_latitude := Infinity false; coords_longitude := two |} /\
  fst (handleSetMarker (device_at (Infinity false) two) (mounted Null ∅ [])) = Returns tt /\
  marker (snd (handleSetMarker (device_at (Infinity false) two) (mounted Null ∅ [])))
  = coordinate (Infinity false) two /\
  persisted (snd (handleSetMarker (device_at (Infinity false) two) (mounted Null ∅ [])))
  = Some (record_of "null" "2") /\
  decoded (persisted (snd (handleSetMarker (device_at (Infinity false) two) (mounted Null ∅ []))))
  = Some (Obj [("latitude"%string, Null); ("longitude"%string, Num two)]) /\
  decoded (persisted (snd (handleSetMarker (device_at (Infinity false) two) (mounted Null ∅ []))))
  <> Some (coordinate (Infinity false) two).
Proof.
  assert (H : decoded (persisted (snd (handleSetMarker (device_at (Infinity false) two)
                                         (mounted Null ∅ []))))
              = Some (Obj [("latitude"%string, Null); ("longitude"%string, Num two)]))
    by (vm_compute; reflexivity).
  repeat split; try (vm_compute; reflexivity); try exact H.
  rewrite H. discriminate.
Qed.

Lemma initialize_parsed (dev : Device) (store : gmap string string)
      (s : string) (v : JsValue) :
  storage_up dev = true ->
  store !! "marker"%string = Some s ->
  s <> ""%string ->
  JSON_parse s = Some v ->
  initialize dev store = (Returns tt, mounted v store [GetItem "marker"]).
Proof.
  intros Hup Hrec Hne Hparse. rewrite initialize_mounts.
  now rewrite (loadMarker_parsed dev (fresh store) s v).
Qed.

(** C7 (amended to finite coordinates). Saving a coordinate (lat, lon) of
    finite numbers and then loading returns exactly (lat, lon); saving
    it a second time leaves the store as it was, and loading still
    returns (lat, lon). *)
Theorem save_then_load_roundtrip (dev dev' : Device) (st : State) (lat lon : JsNumber) :
  permission dev = Resolved "granted"%string ->
  position dev = Resolved {| coords_latitude := lat; coords_longitude := lon |} ->
  storage_up dev = true ->
  storage_up dev' = true ->
  finite lat = true ->
  finite lon = true ->
  marker (snd (initialize dev' (storage (snd (handleSetMarker dev st)))))
  = coordinate lat lon /\
  storage (snd (handleSetMarker dev (snd (handleSetMarker dev st))))
  = storage (snd (handleSetMarker dev st)) /\
  marker (snd (initialize dev'
                 (storage (snd (handleSetMarker dev (snd (handleSetMarker dev st)))))))
  = coordinate lat lon.
Proof.
  intros Hp Hfix Hup Hup' Hlat Hlon.
  destruct (handleSetMarker_saved dev st lat lon Hp Hfix Hup) as [_ Hs1].
  destruct (handleSetMarker_saved dev (snd (handleSetMarker dev st)) lat lon Hp Hfix Hup)
    as [_ Hs2].
  destruct (record_roundtrip lat lon Hlat Hlon) as [Hne Hparse].
  assert (Hload : marker (snd (initialize dev' (storage (snd (handleSetMarker dev st)))))
                  = coordinate lat lon).
  { erewrite initialize_parsed; [reflexivity | exact Hup' | | exact Hne | exact Hparse].
    rewrite Hs1. apply lookup_insert_eq. }
  assert (Hsame : storage (snd (handleSetMarker dev (snd (handleSetMarker dev st))))
                  = storage (snd (handleSetMarker dev st))).
  { rewrite Hs2, Hs1. apply insert_insert_eq. }
  split; [exact Hload|]. split; [exact Hsame|]. now rewrite Hsame.
Qed.

Lemma save_then_load_roundtrip_witness :
  (permission (device_at ten twenty) = Resolved "granted"%string /\
   position (device_at ten twenty)
   = Resolved {| coords_latitude := ten; coords_longitude := twenty |} /\
   storage_up (device_at ten twenty) = true /\
   finite ten = true /\ finite twenty = true) /\
  marker (snd (initialize (device_at ten twenty)
                 (storage (snd (handleSetMarker (device_at ten twenty) screen_1_2)))))
  = coordinate ten twenty.
Proof.
  split; [repeat split|].
  apply (save_then_load_roundtrip (device_at ten twenty) (device_at ten twenty)
           screen_1_2 ten twenty); reflexivity.
Defined.

(** C7 as stated fails on the coordinate (Infinity, 2): what is loaded
    after the save has null for its latitude. *)
Lemma save_then_load_infinite :
  marker (snd (initialize (device_at (Infinity false) two)
                 (storage (snd (handleSetMarker (device_at (Infinity false) two) (mounted Null ∅ []))))))
  = Obj [("latitude"%string, Null); ("longitude"%string, Num two)] /\
  marker (snd (initialize (device_at (Infinity false) two)
                 (storage (snd (handleSetMarker (device_at (Infinity false) two) (mounted Null ∅ []))))))
  <> coordinate (Infinity false) two.
Proof.
  assert (H : marker (snd (initialize (device_at (Infinity false) two)
                 (storage (snd (handleSetMarker (device_at (Infinity false) two) (mounted Null ∅ []))))))
              = Obj [("latitude"%string, Null); ("longitude"%string, Num two)])
    by (vm_compute; reflexivity).
  split; [exact H|]. rewrite H. discriminate.
Qed.

(** ** Consistency of the two copies *)

(** C8 (amended to finite coordinates). A mutation (set or clear) that
    runs to completion leaves the in-memory marker and the persisted
    one equal, provided the coordinates of the fix are finite; and it
    completes only if its storage write went through, so that a failed
    write is never part of a completed interaction. *)
Theorem completed_mutation_in_sync (m : Mutation) (dev : Device) (st : State) :
  (m = SetMutation -> permission dev = Resolved "granted"%string) ->
  finite_fix dev = true ->
  fst (mutate m dev st) = Returns tt ->
  in_sync (snd (mutate m dev st)) /\ storage_up dev = true.
Proof.
  intros Hp Hfin Hdone. destruct m; cbn [mutate] in *.
  - specialize (Hp eq_refl). unfold finite_fix in Hfin.
    destruct (position dev) as [[lat lon]|] eqn:Hfix.
    + cbn [coords_latitude coords_longitude] in Hfin.
      apply andb_true_iff in Hfin as [Hlat Hlon].
      pose proof (handleSetMarker_completes dev st lat lon Hp Hfix Hdone) as Hup.
      split; [|exact Hup].
      destruct (handleSetMarker_saved dev st lat lon Hp Hfix Hup) as [Hm Hs].
      unfold in_sync, persisted. rewrite Hm, Hs, lookup_insert_eq.
      cbn [decoded]. now apply record_roundtrip.
    + rewrite handleSetMarker_no_fix in Hdone by assumption. discriminate Hdone.
  - rewrite handleRemoveMarker_result in *.
    destruct (storage_up dev); [|discriminate Hdone]. split; [|reflexivity].
    unfold in_sync, persisted. cbn [snd storage marker].
    now rewrite lookup_delete_eq.
Qed.

Lemma completed_mutation_in_sync_witness :
  ((SetMutation = SetMutation -> permission (device_at one two) = Resolved "granted"%string) /\
   finite_fix (device_at one two) = true /\
   fst (mutate SetMutation (device_at one two) (mounted Null ∅ [])) = Returns tt) /\
  in_sync (snd (mutate SetMutation (device_at one two) (mounted Null ∅ []))) /\
  storage_up (device_at one two) = true.
Proof.
  split; [repeat split|].
  apply (completed_mutation_in_sync SetMutation (device_at one two) (mounted Null ∅ []));
    reflexivity.
Defined.

(** C8 as stated fails on a fix whose latitude is Infinity: the set
    mutation completes, no write fails, and the two copies differ. *)
Lemma completed_set_infinite_out_of_sync :
  permission (device_at (Infinity false) two) = Resolved "granted"%string /\
  fst (mutate SetMutation (device_at (Infinity false) two) (mounted Null ∅ [])) = Returns tt /\
  ~ in_sync (snd (mutate SetMutation (device_at (Infinity false) two) (mounted Null ∅ []))).
Proof.
  split; [reflexivity|]. split; [reflexivity|].
  unfold in_sync.
  assert (H : decoded (persisted (snd (mutate SetMutation (device_at (Infinity false) two)
                                         (mounted Null ∅ []))))
              = Some (Obj [("latitude"%string, Null); ("longitude"%string, Num two)]))
    by (vm_compute; reflexivity).
  rewrite H. discriminate.
Qed.

(** A storage write that fails leaves the in-memory marker set and the
    record as it was; the action then ends by throwing. *)
Lemma set_failed_write (dev : Device) (st : State) (lat lon : JsNumber) :
  permission dev = Resolved "granted"%string ->
  position dev = Resolved {| coords_latitude := lat; coords_longitude := lon |} ->
  storage_up dev = false ->
  fst (handleSetMarker dev st) = Throws StorageError /\
  marker (snd (handleSetMarker dev st)) = coordinate lat lon /\
  persisted (snd (handleSetMarker dev st)) = persisted st.
Proof.
  intros Hp Hfix Hup. rewrite (handleSetMarker_granted dev st lat lon Hp Hfix).
  cbv zeta. rewrite Hup. repeat split.
Qed.

(** ** Loading *)

(** C9. The load does not validate the shape of the stored value: for
    every non-empty record that JSON.parse reads, whatever value [v] it
    denotes, the load returns with [v] installed as the in-memory
    marker, the loading state ended, and nothing logged. *)
Theorem load_installs_parsed_value (dev : Device) (st : State) (s : string) (v : JsValue) :
  storage_up dev = true ->
  persisted st = Some s ->
  s <> ""%string ->
  JSON_parse s = Some v ->
  fst (loadMarker dev st) = Returns tt /\
  marker (snd (loadMarker dev st)) = v /\
  loading (snd (loadMarker dev st)) = false /\
  calls (loadMarker dev) st = [GetItem "marker"].
Proof.
  intros Hup Hrec Hne Hparse.
  pose proof (loadMarker_parsed dev st s v Hup Hrec Hne Hparse) as E.
  rewrite (calls_after _ _ [GetItem "marker"]) by now rewrite E.
  rewrite E. repeat split.
Qed.

Lemma load_installs_parsed_value_witness :
  (storage_up (device_at one two) = true /\
   persisted (fresh (store_of "5")) = Some "5"%string /\
   "5"%string <> ""%string /\
   JSON_parse "5" = Some (Num (literal "5"))) /\
  marker (snd (loadMarker (device_at one two) (fresh (store_of "5")))) = Num (literal "5").
Proof.
  split; [repeat split; discriminate|].
  apply (load_installs_parsed_value (device_at one two) (fresh (store_of "5")) "5"
           (Num (literal "5")));
    (reflexivity || discriminate).
Defined.

(** The record [{"foo":1}] becomes the marker as well, and the map is
    then mounted on the fallback centre. *)
Example load_foo_object :
  JSON_parse (string_of ("{" :: dquote :: text_of "foo" ++ [dquote; ":"; "1"; "}"]))
  = Some (Obj [("foo"%string, Num one)]) /\
  initialize (device_at one two)
    (store_of (string_of ("{" :: dquote :: text_of "foo" ++ [dquote; ":"; "1"; "}"])))
  = (Returns tt,
     {| marker := Obj [("foo"%string, Num one)];
        loading := false;
        storage := store_of (string_of ("{" :: dquote :: text_of "foo"
                                            ++ [dquote; ":"; "1"; "}"]));
        viewport := Some (region_at fallback_latitude fallback_longitude);
        trace := [GetItem "marker"] |}).
Proof. split; vm_compute; reflexivity. Qed.

(** The record [null] is read as well: the value installed is null. *)
Example load_null_record :
  JSON_parse "null" = Some Null /\
  marker (snd (loadMarker (device_at one two) (fresh (store_of "null")))) = Null /\
  calls (loadMarker (device_at one two)) (fresh (store_of "null")) = [GetItem "marker"].
Proof. repeat split. Qed.

Lemma initialize_none (dev : Device) (store : gmap string string) :
  storage_up dev = true ->
  store !! "marker"%string = None \/ store !! "marker"%string = Some ""%string ->
  initialize dev store = (Returns tt, mounted Null store [GetItem "marker"]).
Proof.
  intros Hup Hrec. rewrite initialize_mounts.
  now rewrite (loadMarker_falsy dev (fresh store)).
Qed.

Lemma initialize_syntax_error (dev : Device) (store : gmap string string) (s : string) :
  storage_up dev = true ->
  store !! "marker"%string = Some s ->
  s <> ""%string ->
  JSON_parse s = None ->
  initialize dev store = (Returns tt, mounted Null store [GetItem "marker"; load_error JsonSyntaxError]).
Proof.
  intros Hup Hrec Hne Hparse. rewrite initialize_mounts.
  now rewrite (loadMarker_syntax_error dev (fresh store) s).
Qed.

(** C6 (amended on the empty string). For every stored string on which
    JSON.parse throws, initialization completes with the loading state
    ended and with the marker and the viewport it has when no record is
    stored (no marker), and no alert is shown.  The failure is logged
    when the string is not empty; the empty string is not parsed at all
    and nothing is logged for it. *)
Theorem load_unparsable_record (dev : Device) (store : gmap string string) (s : string) :
  storage_up dev = true ->
  store !! "marker"%string = Some s ->
  JSON_parse s = None ->
  fst (initialize dev store) = Returns tt /\
  marker (snd (initialize dev store)) = Null /\
  marker (snd (initialize dev store))
  = marker (snd (initialize dev (delete "marker"%string store))) /\
  viewport (snd (initialize dev store))
  = viewport (snd (initialize dev (delete "marker"%string store))) /\
  loading (snd (initialize dev store)) = false /\
  trace (snd (initialize dev store))
  = GetItem "marker"
      :: (if String.eqb s "" then [] else [load_error JsonSyntaxError]) /\
  forall title message, ~ In (Alert title message) (trace (snd (initialize dev store))).
Proof.
  intros Hup Hrec Hparse.
  rewrite (initialize_none dev (delete "marker"%string store) Hup)
    by (left; apply lookup_delete_eq).
  destruct (String.eqb_spec s "") as [-> | Hne].
  - rewrite (initialize_none dev store Hup) by now right.
    repeat split. intros title message [H | []]. discriminate H.
  - rewrite (initialize_syntax_error dev store s Hup Hrec Hne Hparse).
    repeat split. intros title message [H | [H | []]]; discriminate H.
Qed.

Lemma load_unparsable_record_witness :
  (storage_up (device_at one two) = true /\
   store_of "{bad" !! "marker"%string = Some "{bad"%string /\
   JSON_parse "{bad" = None) /\
  marker (snd (initialize (device_at one two) (store_of "{bad"))) = Null /\
  trace (snd (initialize (device_at one two) (store_of "{bad")))
  = [GetItem "marker"; load_error JsonSyntaxError].
Proof.
  split; [repeat split|].
  destruct (load_unparsable_record (device_at one two) (store_of "{bad") "{bad"
              eq_refl eq_refl eq_refl) as (_ & Hm & _ & _ & _ & Ht & _).
  split; [exact Hm | exact Ht].
Defined.

(** C6 as stated fails on the empty string: JSON.parse throws on it, but
    the load does not parse it, and no failure is logged. *)
Lemma load_empty_record_not_logged :
  store_of "" !! "marker"%string = Some ""%string /\
  JSON_parse "" = None /\
  marker (snd (loadMarker (device_at one two) (fresh (store_of "")))) = Null /\
  calls (loadMarker (device_at one two)) (fresh (store_of "")) = [GetItem "marker"] /\
  forall e, ~ In (load_error e)
                 (calls (loadMarker (device_at one two)) (fresh (store_of ""))).
Proof.
  repeat split. intros e [H | []]. discriminate H.
Qed.

(** ** The initial region *)

Lemma initialRegion_coordinate (lat lon : JsNumber) :
  initialRegion (coordinate lat lon)
  = {| latitude := js_or (Num lat) (Num fallback_latitude);
       longitude := js_or (Num lon) (Num fallback_longitude);
       latitudeDelta := Num (literal "0.01");
       longitudeDelta := Num (literal "0.01") |}.
Proof. reflexivity. Qed.

Lemma truthy_finite_nonzero (x : JsNumber) :
  finite x = true -> x <> Zero -> truthy (Num x) = true.
Proof. destruct x; (discriminate || congruence || reflexivity). Qed.

(** A stored coordinate of finite numbers, neither of them zero: the
    marker is that coordinate and the map is mounted on it. *)
Lemma initialize_stored_marker (dev : Device) (store : gmap string string)
      (lat lon : JsNumber) :
  storage_up dev = true ->
  store !! "marker"%string = JSON_stringify (coordinate lat lon) ->
  finite lat = true -> finite lon = true ->
  lat <> Zero -> lon <> Zero ->
  marker (snd (initialize dev store)) = coordinate lat lon /\
  viewport (snd (initialize dev store)) = Some (region_at lat lon).
Proof.
  intros Hup Hrec Hlat Hlon Hlat0 Hlon0.
  rewrite stringify_coordinate_some in Hrec.
  destruct (record_roundtrip lat lon Hlat Hlon) as [Hne Hparse].
  rewrite (initialize_parsed dev store _ _ Hup Hrec Hne Hparse).
  split; [reflexivity|]. cbn [snd mounted viewport].
  rewrite initialRegion_coordinate. unfold js_or.
  now rewrite !truthy_finite_nonzero.
Qed.

(** The testable property of the specification: the record
    [{latitude: 10, longitude: 20}] gives the marker (10, 20) and a
    viewport centred there. *)
Example initialize_stored_10_20 :
  JSON_stringify (coordinate ten twenty) = Some (record_of "10" "20") /\
  initialize (device_at one two) (store_of (record_of "10" "20"))
  = (Returns tt,
     {| marker := coordinate ten twenty; loading := false;
        storage := store_of (record_of "10" "20");
        viewport := Some (region_at ten twenty);
        trace := [GetItem "marker"] |}).
Proof. split; vm_compute; reflexivity. Qed.

(** C2, at the input where the code departs from it. With the record
    [{latitude: 0, longitude: 20}] stored, initialization yields the
    marker (0, 20), but the map is mounted on latitude 40.4168, the
    fallback, and longitude 20: [marker?.latitude || 40.4168] takes the
    latitude 0 for a missing one. *)
Theorem initialize_zero_latitude :
  JSON_stringify (coordinate Zero twenty) = Some (record_of "0" "20") /\
  marker (snd (initialize (device_at one two) store_0_20)) = coordinate Zero twenty /\
  viewport (snd (initialize (device_at one two) store_0_20))
  = Some (region_at (literal "40.4168") twenty) /\
  viewport (snd (initialize (device_at one two) store_0_20))
  <> Some (region_at Zero twenty).
Proof.
  assert (H : viewport (snd (initialize (device_at one two) store_0_20))
              = Some (region_at (literal "40.4168") twenty))
    by (vm_compute; reflexivity).
  split; [vm_compute; reflexivity|]. split; [vm_compute; reflexivity|].
  split; [exact H|]. rewrite H. discriminate.
Qed.

(** ** The plain variant

    app/app.tsx has the load, the save and the initial region of
    app/(tabs)/_layout.tsx word for word, so what is proved above of
    them holds of both screens. *)
Lemma PlainApp_same_code :
  PlainApp.loadMarker = loadMarker /\
  PlainApp.handleSetMarker = handleSetMarker /\
  PlainApp.initialRegion = initialRegion.
Proof. repeat split. Qed.

(** * Beyond the claims *)

(** ** What each handler can do to the state *)

Ltac device_cases dev :=
  let status := fresh "status" in
  let Hp := fresh "Hp" in
  let Hne := fresh "Hne" in
  let lat := fresh "lat" in
  let lon := fresh "lon" in
  let Hfix := fresh "Hfix" in
  destruct (permission dev) as [status|] eqn:Hp;
  [ destruct (String.eqb_spec status "granted") as [-> | Hne];
    [ destruct (position dev) as [[lat lon]|] eqn:Hfix | ]
  | ].

(** The save action leaves [loading] and the viewport alone, and either
    changes nothing else, or sets the marker to the coordinate of the
    fix and, when the write goes through, the record to its text. *)
Lemma handleSetMarker_effect (dev : Device) (st : State) :
  loading (snd (handleSetMarker dev st)) = loading st /\
  viewport (snd (handleSetMarker dev st)) = viewport st /\
  ((marker (snd (handleSetMarker dev st)) = marker st /\
    storage (snd (handleSetMarker dev st)) = storage st /\
    (permission dev = Resolved "granted"%string -> position dev = Rejected)) \/
   exists lat lon,
     permission dev = Resolved "granted"%string /\
     position dev = Resolved {| coords_latitude := lat; coords_longitude := lon |} /\
     marker (snd (handleSetMarker dev st)) = coordinate lat lon /\
     storage (snd (handleSetMarker dev st))
     = if storage_up dev
       then <["marker"%string :=
                string_of (coordinate_text (number_text lat) (number_text lon))]>
              (storage st)
       else storage st).
Proof.
  device_cases dev.
  - rewrite (handleSetMarker_granted dev st lat lon Hp Hfix). cbv zeta.
    destruct (storage_up dev); (split; [reflexivity|]; split; [reflexivity|]);
      right; exists lat, lon; repeat split.
  - rewrite (handleSetMarker_no_fix dev st Hp Hfix).
    split; [reflexivity|]. split; [reflexivity|]. left. repeat split.
  - rewrite (handleSetMarker_not_granted dev st status Hp Hne).
    split; [reflexivity|]. split; [reflexivity|]. left.
    split; [reflexivity|]. split; [reflexivity|]. intros H. congruence.
  - rewrite (handleSetMarker_permission_rejected dev st Hp).
    split; [reflexivity|]. split; [reflexivity|]. left.
    split; [reflexivity|]. split; [reflexivity|]. discriminate.
Qed.

(** The center-on-me action changes at most the viewport, and that only
    on a mounted map, with the permission granted and a fix. *)
Lemma centerMapOnUser_effect (dev : Device) (st : State) :
  marker (snd (centerMapOnUser dev st)) = marker st /\
  loading (snd (centerMapOnUser dev st)) = loading st /\
  storage (snd (centerMapOnUser dev st)) = storage st /\
  (viewport (snd (centerMapOnUser dev st)) = viewport st \/
   exists lat lon,
     viewport st <> None /\
     permission dev = Resolved "granted"%string /\
     position dev = Resolved {| coords_latitude := lat; coords_longitude := lon |} /\
     viewport (snd (centerMapOnUser dev st)) = Some (region_at lat lon)).
Proof.
  device_cases dev.
  - rewrite (centerMapOnUser_granted dev st lat lon Hp Hfix).
    destruct (viewport st) as [r|] eqn:Hv; repeat split; try (now left).
    right. exists lat, lon. repeat split. discriminate.
  - rewrite (centerMapOnUser_no_fix dev st Hp Hfix). repeat split. now left.
  - rewrite (centerMapOnUser_not_granted dev st status Hp Hne). repeat split. now left.
  - rewrite (centerMapOnUser_permission_rejected dev st Hp). repeat split. now left.
Qed.

Lemma handleRemoveMarker_effect (dev : Device) (st : State) :
  marker (snd (handleRemoveMarker dev st)) = Null /\
  loading (snd (handleRemoveMarker dev st)) = loading st /\
  viewport (snd (handleRemoveMarker dev st)) = viewport st /\
  storage (snd (handleRemoveMarker dev st))
  = if storage_up dev then delete "marker"%string (storage st) else storage st.
Proof. rewrite handleRemoveMarker_result. destruct (storage_up dev); repeat split. Qed.

(** The load changes neither the store nor the viewport. *)
Lemma loadMarker_effect (dev : Device) (st : State) :
  fst (loadMarker dev st) = Returns tt /\
  loading (snd (loadMarker dev st)) = false /\
  storage (snd (loadMarker dev st)) = storage st /\
  viewport (snd (loadMarker dev st)) = viewport st /\
  (marker (snd (loadMarker dev st)) = marker st \/
   exists s, storage_up dev = true /\ persisted st = Some s /\ s <> ""%string /\
             JSON_parse s = Some (marker (snd (loadMarker dev st)))) /\
  exists es,
    trace (snd (loadMarker dev st)) = trace st ++ GetItem "marker" :: es /\
    forall e, In e es -> exists err, e = load_error err.
Proof.
  destruct (storage_up dev) eqn:Hup.
  - destruct (persisted st) as [s|] eqn:Hrec.
    + destruct (String.eqb_spec s "") as [-> | Hne].
      * rewrite loadMarker_falsy by auto. repeat split; [now left|].
        exists []. split; [reflexivity | intros e []].
      * destruct (JSON_parse s) as [v|] eqn:Hparse.
        -- rewrite (loadMarker_parsed dev st s v) by auto.
           repeat split; [right; now exists s|].
           exists []. split; [reflexivity | intros e []].
        -- rewrite (loadMarker_syntax_error dev st s) by auto.
           repeat split; [now left|].
           exists [load_error JsonSyntaxError]. split; [reflexivity|].
           intros e [<- | []]. now eexists.
    + rewrite loadMarker_falsy by auto. repeat split; [now left|].
      exists []. split; [reflexivity | intros e []].
  - rewrite loadMarker_unreadable by auto. repeat split; [now left|].
    exists [load_error StorageError]. split; [reflexivity|].
    intros e [<- | []]. now eexists.
Qed.

(** React's commit changes nothing but the viewport, and nothing at all
    once the map is mounted. *)
Lemma commit_frame (st : State) :
  marker (commit st) = marker st /\
  loading (commit st) = loading st /\
  storage (commit st) = storage st /\
  trace (commit st) = trace st /\
  (viewport st <> None -> commit st = st) /\
  (loading st = false -> viewport (commit st) <> None).
Proof.
  destruct st as [m [] s [r|] t]; unfold commit, render;
    cbn [marker loading storage trace viewport];
    (do 4 (split; [reflexivity|])); split; congruence.
Qed.

Lemma interact_snd (handler : Async unit) (st : State) :
  snd (interact handler st) = commit (snd (handler st)).
Proof. unfold interact. now destruct (handler st). Qed.

Lemma interact_fst (handler : Async unit) (st : State) :
  fst (interact handler st) = fst (handler st).
Proof. unfold interact. now destruct (handler st). Qed.

Lemma in_calls_after (handler : Async unit) (st st' : State) (r : completion unit)
      (es : list Event) :
  handler st = (r, st') -> trace st' = trace st ++ es -> calls handler st = es.
Proof. intros H Ht. apply calls_after. now rewrite H. Qed.

(** The calls of the save action, in all its cases. *)
Lemma handleSetMarker_calls (dev : Device) (st : State) :
  calls (handleSetMarker dev) st = [RequestForegroundPermissions] \/
  calls (handleSetMarker dev) st = [RequestForegroundPermissions; denied_alert] \/
  calls (handleSetMarker dev) st = [RequestForegroundPermissions; GetCurrentPosition] \/
  exists lat lon,
    permission dev = Resolved "granted"%string /\
    position dev = Resolved {| coords_latitude := lat; coords_longitude := lon |} /\
    calls (handleSetMarker dev) st
    = [RequestForegroundPermissions; GetCurrentPosition;
       SetItem "marker"
         (string_of (coordinate_text (number_text lat) (number_text lon)))].
Proof.
  device_cases dev.
  - right. right. right. exists lat, lon. split; [reflexivity|]. split; [reflexivity|].
    apply calls_after. rewrite (handleSetMarker_granted dev st lat lon Hp Hfix).
    cbv zeta. destruct (storage_up dev); reflexivity.
  - right. right. left. apply calls_after. now rewrite handleSetMarker_no_fix.
  - right. left. apply calls_after.
    now rewrite (handleSetMarker_not_granted dev st status).
  - left. apply calls_after. now rewrite handleSetMarker_permission_rejected.
Qed.

(** The calls of the center-on-me action, in all its cases. *)
Lemma centerMapOnUser_calls (dev : Device) (st : State) :
  calls (centerMapOnUser dev) st = [RequestForegroundPermissions] \/
  calls (centerMapOnUser dev) st = [RequestForegroundPermissions; denied_alert] \/
  calls (centerMapOnUser dev) st = [RequestForegroundPermissions; GetCurrentPosition] \/
  exists lat lon,
    calls (centerMapOnUser dev) st
    = [RequestForegroundPermissions; GetCurrentPosition;
       AnimateToRegion (region_at lat lon) 1000].
Proof.
  device_cases dev.
  - pose proof (centerMapOnUser_granted dev st lat lon Hp Hfix) as E.
    destruct (viewport st).
    + right. right. right. exists lat, lon. apply calls_after. now rewrite E.
    + right. right. left. apply calls_after. now rewrite E.
  - right. right. left. apply calls_after. now rewrite centerMapOnUser_no_fix.
  - right. left. apply calls_after.
    now rewrite (centerMapOnUser_not_granted dev st status).
  - left. apply calls_after. now rewrite centerMapOnUser_permission_rejected.
Qed.

Lemma handleRemoveMarker_calls (dev : Device) (st : State) :
  calls (handleRemoveMarker dev) st = [RemoveItem "marker"].
Proof.
  apply calls_after. rewrite handleRemoveMarker_result.
  now destruct (storage_up dev).
Qed.

(** The calls of the load, in all its cases. *)
Lemma loadMarker_calls (dev : Device) (st : State) :
  exists logs,
    calls (loadMarker dev) st = GetItem "marker" :: logs /\
    (logs = [] \/ exists err, logs = [load_error err]).
Proof.
  destruct (loadMarker_effect dev st) as (_ & _ & _ & _ & _ & es & Ht & Hes).
  apply calls_after in Ht. rewrite Ht. exists es. split; [reflexivity|].
  destruct (storage_up dev) eqn:Hup.
  - destruct (persisted st) as [s|] eqn:Hrec.
    + destruct (String.eqb_spec s "") as [-> | Hne].
      * pose proof (loadMarker_falsy dev st Hup (or_intror Hrec)) as E.
        rewrite (calls_after _ _ [GetItem "marker"]) in Ht by now rewrite E.
        injection Ht as <-. now left.
      * destruct (JSON_parse s) as [v|] eqn:Hparse.
        -- pose proof (loadMarker_parsed dev st s v Hup Hrec Hne Hparse) as E.
           rewrite (calls_after _ _ [GetItem "marker"]) in Ht by now rewrite E.
           injection Ht as <-. now left.
        -- pose proof (loadMarker_syntax_error dev st s Hup Hrec Hne Hparse) as E.
           rewrite (calls_after _ _ [GetItem "marker"; load_error JsonSyntaxError]) in Ht
             by now rewrite E.
           injection Ht as <-. right. now eexists.
    + pose proof (loadMarker_falsy dev st Hup (or_introl Hrec)) as E.
      rewrite (calls_after _ _ [GetItem "marker"]) in Ht by now rewrite E.
      injection Ht as <-. now left.
  - pose proof (loadMarker_unreadable dev st Hup) as E.
    rewrite (calls_after _ _ [GetItem "marker"; load_error StorageError]) in Ht
      by now rewrite E.
    injection Ht as <-. right. now eexists.
Qed.

(** ** The load *)

(** X1. The load never fails: for every device and every state, hence
    whatever the store holds and also when the read is rejected, it
    returns, ends the loading state, leaves the store and the viewport
    as they were, reads the key [marker] once and makes no other call
    than at most one console log. *)
Theorem load_never_fails (dev : Device) (st : State) :
  fst (loadMarker dev st) = Returns tt /\
  loading (snd (loadMarker dev st)) = false /\
  storage (snd (loadMarker dev st)) = storage st /\
  viewport (snd (loadMarker dev st)) = viewport st /\
  exists logs,
    calls (loadMarker dev) st = GetItem "marker" :: logs /\
    (logs = [] \/ exists err, logs = [load_error err]).
Proof.
  destruct (loadMarker_effect dev st) as (H1 & H2 & H3 & H4 & _).
  repeat (split; [assumption|]). apply loadMarker_calls.
Qed.

(** ** Failures after the permission check *)

(** X2. A position fix that fails after the permission was granted is
    silent: the save action and the center-on-me action throw, with the
    marker, the store, the viewport and the loading state unchanged, and
    their only calls are the permission request and the request for the
    position: no alert is shown and nothing is written. *)
Theorem fix_failure_is_silent (dev : Device) (st : State) (handler : Async unit) :
  handler = handleSetMarker dev \/ handler = centerMapOnUser dev ->
  permission dev = Resolved "granted"%string ->
  position dev = Rejected ->
  fst (handler st) = Throws LocationError /\
  marker (snd (handler st)) = marker st /\
  loading (snd (handler st)) = loading st /\
  storage (snd (handler st)) = storage st /\
  viewport (snd (handler st)) = viewport st /\
  calls handler st = [RequestForegroundPermissions; GetCurrentPosition].
Proof.
  intros Hh Hp Hfix.
  assert (E : handler st
              = (Throws LocationError,
                 after_calls st [RequestForegroundPermissions; GetCurrentPosition])).
  { destruct Hh as [-> | ->].
    - now apply handleSetMarker_no_fix.
    - now apply centerMapOnUser_no_fix. }
  rewrite (calls_after _ _ [RequestForegroundPermissions; GetCurrentPosition])
    by now rewrite E.
  rewrite E. repeat split.
Qed.

Lemma fix_failure_is_silent_witness :
  (permission {| permission := Resolved "granted"%string; position := Rejected;
                 storage_up := true |} = Resolved "granted"%string /\
   position {| permission := Resolved "granted"%string; position := Rejected;
               storage_up := true |} = Rejected) /\
  fst (handleSetMarker {| permission := Resolved "granted"%string; position := Rejected;
                          storage_up := true |} screen_1_2)
  = Throws LocationError /\
  marker (snd (handleSetMarker {| permission := Resolved "granted"%string;
                                  position := Rejected; storage_up := true |} screen_1_2))
  = marker screen_1_2.
Proof.
  split; [split; reflexivity|].
  destruct (fix_failure_is_silent
              {| permission := Resolved "granted"%string; position := Rejected;
                 storage_up := true |} screen_1_2 _ (or_introl eq_refl) eq_refl eq_refl)
    as (H1 & H2 & _).
  split; [exact H1 | exact H2].
Defined.

(** X3. When AsyncStorage rejects the removal, the remove action throws
    with the in-memory marker already cleared and the record still in
    the store: the marker is gone from the screen and is back at the
    next launch. *)
Theorem failed_remove_comes_back (dev dev' : Device) (st : State) (s : string) (v : JsValue) :
  storage_up dev = false ->
  storage_up dev' = true ->
  persisted st = Some s ->
  s <> ""%string ->
  JSON_parse s = Some v ->
  fst (handleRemoveMarker dev st) = Throws StorageError /\
  marker (snd (handleRemoveMarker dev st)) = Null /\
  persisted (snd (handleRemoveMarker dev st)) = Some s /\
  marker (snd (initialize dev' (storage (snd (handleRemoveMarker dev st))))) = v.
Proof.
  intros Hdown Hup Hrec Hne Hparse.
  rewrite handleRemoveMarker_result, Hdown. cbn [fst snd marker storage].
  unfold persisted in *. cbn [storage].
  repeat split; try assumption.
  now rewrite (initialize_parsed dev' (storage st) s v).
Qed.

Lemma failed_remove_comes_back_witness :
  (storage_up {| permission := Rejected; position := Rejected; storage_up := false |}
   = false /\
   storage_up (device_at one two) = true /\
   persisted screen_1_2 = Some (record_of "1" "2") /\
   record_of "1" "2" <> ""%string /\
   JSON_parse (record_of "1" "2") = Some (coordinate one two)) /\
  marker (snd (handleRemoveMarker
                 {| permission := Rejected; position := Rejected; storage_up := false |}
                 screen_1_2)) = Null /\
  marker (snd (initialize (device_at one two)
                 (storage (snd (handleRemoveMarker
                                  {| permission := Rejected; position := Rejected;
                                     storage_up := false |} screen_1_2)))))
  = coordinate one two.
Proof.
  split; [repeat split; discriminate|].
  destruct (failed_remove_comes_back
              {| permission := Rejected; position := Rejected; storage_up := false |}
              (device_at one two) screen_1_2 (record_of "1" "2") (coordinate one two)
              eq_refl eq_refl eq_refl ltac:(discriminate) eq_refl)
    as (_ & H1 & _ & H2).
  split; [exact H1 | exact H2].
Defined.

(** X4. When AsyncStorage rejects the write, the save action throws with
    the in-memory marker already set to the new coordinate and the store
    as it was: the next launch shows what it would have shown without
    the save. *)
Theorem failed_save_is_lost (dev dev' : Device) (st : State) (lat lon : JsNumber) :
  permission dev = Resolved "granted"%string ->
  position dev = Resolved {| coords_latitude := lat; coords_longitude := lon |} ->
  storage_up dev = false ->
  fst (handleSetMarker dev st) = Throws StorageError /\
  marker (snd (handleSetMarker dev st)) = coordinate lat lon /\
  storage (snd (handleSetMarker dev st)) = storage st /\
  initialize dev' (storage (snd (handleSetMarker dev st))) = initialize dev' (storage st).
Proof.
  intros Hp Hfix Hdown.
  rewrite (handleSetMarker_granted dev st lat lon Hp Hfix). cbv zeta. rewrite Hdown.
  repeat split.
Qed.

Lemma failed_save_is_lost_witness :
  (permission {| permission := Resolved "granted"%string;
                 position := Resolved {| coords_latitude := ten; coords_longitude := twenty |};
                 storage_up := false |} = Resolved "granted"%string /\
   storage_up {| permission := Resolved "granted"%string;
                 position := Resolved {| coords_latitude := ten; coords_longitude := twenty |};
                 storage_up := false |} = false) /\
  marker (snd (handleSetMarker
                 {| permission := Resolved "granted"%string;
                    position := Resolved {| coords_latitude := ten;
                                            coords_longitude := twenty |};
                    storage_up := false |} screen_1_2))
  = coordinate ten twenty /\
  storage (snd (handleSetMarker
                  {| permission := Resolved "granted"%string;
                     position := Resolved {| coords_latitude := ten;
                                             coords_longitude := twenty |};
                     storage_up := false |} screen_1_2))
  = storage screen_1_2.
Proof.
  split; [split; reflexivity|].
  destruct (failed_save_is_lost
              {| permission := Resolved "granted"%string;
                 position := Resolved {| coords_latitude := ten;
                                         coords_longitude := twenty |};
                 storage_up := false |} (device_at one two) screen_1_2 ten twenty
              eq_refl eq_refl eq_refl) as (_ & H1 & H2 & _).
  split; [exact H1 | exact H2].
Defined.

(** ** What is written, and when *)

(** X5. A completed save replaces the whole value: the marker and the
    record it leaves are those of the fix alone, whatever the marker and
    the record were before (so that of two saves the later one wins). *)
Theorem save_forgets_previous (dev : Device) (st1 st2 : State) (lat lon : JsNumber) :
  permission dev = Resolved "granted"%string ->
  position dev = Resolved {| coords_latitude := lat; coords_longitude := lon |} ->
  storage_up dev = true ->
  marker (snd (handleSetMarker dev st1)) = marker (snd (handleSetMarker dev st2)) /\
  persisted (snd (handleSetMarker dev st1)) = persisted (snd (handleSetMarker dev st2)) /\
  persisted (snd (handleSetMarker dev st1)) = JSON_stringify (coordinate lat lon).
Proof.
  intros Hp Hfix Hup.
  destruct (handleSetMarker_saved dev st1 lat lon Hp Hfix Hup) as [Hm1 Hs1].
  destruct (handleSetMarker_saved dev st2 lat lon Hp Hfix Hup) as [Hm2 Hs2].
  unfold persisted. rewrite Hm1, Hm2, Hs1, Hs2, !lookup_insert_eq.
  now rewrite stringify_coordinate_some.
Qed.

Lemma save_forgets_previous_witness :
  (permission (device_at ten twenty) = Resolved "granted"%string /\
   position (device_at ten twenty)
   = Resolved {| coords_latitude := ten; coords_longitude := twenty |} /\
   storage_up (device_at ten twenty) = true) /\
  marker (snd (handleSetMarker (device_at ten twenty) screen_1_2))
  = marker (snd (handleSetMarker (device_at ten twenty) (mounted Null ∅ []))) /\
  persisted (snd (handleSetMarker (device_at ten twenty) screen_1_2))
  = persisted (snd (handleSetMarker (device_at ten twenty) (mounted Null ∅ []))).
Proof.
  split; [repeat split|].
  destruct (save_forgets_previous (device_at ten twenty) screen_1_2 (mounted Null ∅ [])
              ten twenty eq_refl eq_refl eq_refl) as (H1 & H2 & _).
  split; [exact H1 | exact H2].
Defined.

(** X6. Nothing writes a record but the save action with a granted
    permission and a fix: if the handler of a tap (save, remove or
    center) calls AsyncStorage.setItem, it is the save action, the key
    is [marker], and the value is JSON.stringify of the coordinate of
    the fix the device gave. *)
Theorem record_written_only_from_fix (a : Action) (dev : Device) (st : State)
        (k v : string) :
  In (SetItem k v) (calls (handler_of a dev) st) ->
  a = TapSave /\
  k = "marker"%string /\
  exists lat lon,
    permission dev = Resolved "granted"%string /\
    position dev = Resolved {| coords_latitude := lat; coords_longitude := lon |} /\
    JSON_stringify (coordinate lat lon) = Some v.
Proof.
  intros Hin. destruct a; cbn [handler_of] in Hin.
  - split; [reflexivity|].
    destruct (handleSetMarker_calls dev st)
      as [E | [E | [E | (lat & lon & Hp & Hfix & E)]]]; rewrite E in Hin.
    + destruct Hin as [H | []]. discriminate H.
    + destruct Hin as [H | [H | []]]; discriminate H.
    + destruct Hin as [H | [H | []]]; discriminate H.
    + destruct Hin as [H | [H | [H | []]]]; try discriminate H.
      injection H as <- <-. split; [reflexivity|].
      exists lat, lon. split; [exact Hp|]. split; [exact Hfix|].
      apply stringify_coordinate_some.
  - rewrite handleRemoveMarker_calls in Hin. destruct Hin as [H | []]. discriminate H.
  - destruct (centerMapOnUser_calls dev st) as [E | [E | [E | (lat & lon & E)]]];
      rewrite E in Hin; repeat (destruct Hin as [H | Hin]; [discriminate H|]);
      destruct Hin.
Qed.

Lemma record_written_only_from_fix_witness :
  In (SetItem "marker" (record_of "1" "2"))
     (calls (handler_of TapSave (device_at one two)) (mounted Null ∅ [])) /\
  TapSave = TapSave /\
  "marker"%string = "marker"%string /\
  exists lat lon,
    permission (device_at one two) = Resolved "granted"%string /\
    position (device_at one two)
    = Resolved {| coords_latitude := lat; coords_longitude := lon |} /\
    JSON_stringify (coordinate lat lon) = Some (record_of "1" "2").
Proof.
  assert (Hin : In (SetItem "marker" (record_of "1" "2"))
                  (calls (handler_of TapSave (device_at one two)) (mounted Null ∅ [])))
    by (vm_compute; right; right; now left).
  split; [exact Hin|].
  exact (record_written_only_from_fix TapSave (device_at one two) (mounted Null ∅ [])
           "marker" (record_of "1" "2") Hin).
Defined.

(** ** The map after initialization *)

Lemma launch_frame (dev : Device) (store : gmap string string) :
  fst (initialize dev store) = Returns tt /\
  loading (launch dev store) = false /\
  storage (launch dev store) = store /\
  viewport (launch dev store) = Some (initialRegion (marker (launch dev store))) /\
  (marker (launch dev store) = Null \/
   exists s, storage_up dev = true /\ store !! "marker"%string = Some s /\
             s <> ""%string /\ JSON_parse s = Some (marker (launch dev store))).
Proof.
  unfold launch. rewrite initialize_mounts. cbn [fst snd]. cbv zeta.
  unfold mounted. cbn [marker loading storage viewport].
  destruct (loadMarker_effect dev (fresh store)) as (_ & _ & Hs & _ & Hm & _).
  split; [reflexivity|]. split; [reflexivity|]. split; [exact Hs|].
  split; [reflexivity|]. exact Hm.
Qed.

Lemma launch_null_or_object (dev : Device) (store : gmap string string) :
  object_record store = true -> null_or_object (marker (launch dev store)) = true.
Proof.
  intros Hshape.
  destruct (launch_frame dev store) as (_ & _ & _ & _ & [-> | H]); [reflexivity|].
  destruct H as (s & _ & Hrec & _ & Hparse).
  unfold object_record in Hshape. now rewrite Hrec, Hparse in Hshape.
Qed.

(** X7. Initialization always ends with the map mounted, whatever
    object or null the record holds, and also with text that is not
    JSON, with no record and when the read fails: it returns, the
    loading state is over, the store is as it was, the marker is null or
    an object, and the map is on the region whose latitude is the
    field [latitude] of the marker when that is truthy and 40.4168
    otherwise, whose longitude is the field [longitude] of the marker
    when that is truthy and -3.7038 otherwise, and whose deltas are
    0.01; both centre fields are truthy values. *)
Theorem initialization_always_mounts (dev : Device) (store : gmap string string) :
  object_record store = true ->
  fst (initialize dev store) = Returns tt /\
  loading (launch dev store) = false /\
  storage (launch dev store) = store /\
  null_or_object (marker (launch dev store)) = true /\
  exists region,
    viewport (launch dev store) = Some region /\
    latitude region
    = (if truthy (optional_get (marker (launch dev store)) "latitude")
       then optional_get (marker (launch dev store)) "latitude"
       else Num (literal "40.4168")) /\
    longitude region
    = (if truthy (optional_get (marker (launch dev store)) "longitude")
       then optional_get (marker (launch dev store)) "longitude"
       else Num (literal "-3.7038")) /\
    truthy (latitude region) = true /\
    truthy (longitude region) = true /\
    latitudeDelta region = Num (literal "0.01") /\
    longitudeDelta region = Num (literal "0.01").
Proof.
  intros Hshape.
  destruct (launch_frame dev store) as (H1 & H2 & H3 & H4 & _).
  repeat (split; [assumption|]).
  split; [now apply launch_null_or_object|].
  exists (initialRegion (marker (launch dev store))). split; [exact H4|].
  unfold initialRegion, js_or. cbn [latitude longitude latitudeDelta longitudeDelta].
  split; [reflexivity|]. split; [reflexivity|].
  split; [|split; [|split; reflexivity]].
  - now destruct (truthy (optional_get (marker (launch dev store)) "latitude")) eqn:E.
  - now destruct (truthy (optional_get (marker (launch dev store)) "longitude")) eqn:E.
Qed.

Lemma initialization_always_mounts_witness :
  object_record store_0_20 = true /\
  marker (launch (device_at one two) store_0_20) = coordinate Zero twenty /\
  exists region,
    viewport (launch (device_at one two) store_0_20) = Some region /\
    latitude region = Num (literal "40.4168") /\
    longitude region = Num twenty.
Proof.
  split; [reflexivity|]. split; [vm_compute; reflexivity|].
  destruct (initialization_always_mounts (device_at one two) store_0_20 eq_refl)
    as (_ & _ & _ & _ & region & Hv & Hlat & Hlon & _).
  exists region. split; [exact Hv|]. split; [exact Hlat | exact Hlon].
Defined.

(** ** The remove button *)

(** X8. After a save with the permission granted and a fix, the marker
    is truthy whatever the two numbers are (zero, NaN and the infinities
    included, and also when the write fails), so that the pin and the
    remove button are rendered; after the remove action they are not,
    and a tap on the remove control then does nothing. *)
Theorem remove_button_follows_marker (dev dev' : Device) (st : State) (lat lon : JsNumber) :
  loading st = false ->
  permission dev = Resolved "granted"%string ->
  position dev = Resolved {| coords_latitude := lat; coords_longitude := lon |} ->
  render (tap TapSave dev st)
  = MapScreen (initialRegion (coordinate lat lon)) (Some (coordinate lat lon)) true /\
  render (tap TapRemove dev' (tap TapSave dev st))
  = MapScreen (initialRegion Null) None false /\
  tap TapRemove dev (tap TapRemove dev' (tap TapSave dev st))
  = tap TapRemove dev' (tap TapSave dev st).
Proof.
  intros Hl Hp Hfix.
  assert (Hoff : offered TapSave st = true) by (unfold offered, render; now rewrite Hl).
  assert (Hsave : marker (tap TapSave dev st) = coordinate lat lon /\
                  loading (tap TapSave dev st) = false).
  { unfold tap. rewrite Hoff, interact_snd. cbn [handler_of].
    destruct (commit_frame (snd (handleSetMarker dev st))) as (-> & -> & _).
    destruct (handleSetMarker_effect dev st) as (-> & _ & [(_ & _ & H) | H]).
    - specialize (H Hp). congruence.
    - destruct H as (lat' & lon' & _ & Hfix' & -> & _).
      rewrite Hfix in Hfix'. injection Hfix' as <- <-. now split. }
  destruct Hsave as [Hm Hl'].
  assert (Hr1 : render (tap TapSave dev st)
                = MapScreen (initialRegion (coordinate lat lon))
                    (Some (coordinate lat lon)) true)
    by (unfold render; now rewrite Hl', Hm).
  assert (Hoff' : offered TapRemove (tap TapSave dev st) = true)
    by (unfold offered; now rewrite Hr1).
  assert (Hrem : marker (tap TapRemove dev' (tap TapSave dev st)) = Null /\
                 loading (tap TapRemove dev' (tap TapSave dev st)) = false).
  { unfold tap at 1 3. rewrite Hoff', interact_snd. cbn [handler_of].
    destruct (commit_frame (snd (handleRemoveMarker dev' (tap TapSave dev st))))
      as (-> & -> & _).
    destruct (handleRemoveMarker_effect dev' (tap TapSave dev st)) as (-> & -> & _).
    now split. }
  destruct Hrem as [Hm2 Hl2].
  assert (Hr2 : render (tap TapRemove dev' (tap TapSave dev st))
                = MapScreen (initialRegion Null) None false)
    by (unfold render; now rewrite Hl2, Hm2).
  split; [exact Hr1|]. split; [exact Hr2|].
  unfold tap at 1. unfold offered. now rewrite Hr2.
Qed.

Lemma remove_button_follows_marker_witness :
  (loading (mounted Null ∅ []) = false /\
   permission (device_at Zero Zero) = Resolved "granted"%string /\
   position (device_at Zero Zero)
   = Resolved {| coords_latitude := Zero; coords_longitude := Zero |}) /\
  render (tap TapSave (device_at Zero Zero) (mounted Null ∅ []))
  = MapScreen (initialRegion (coordinate Zero Zero)) (Some (coordinate Zero Zero)) true.
Proof.
  split; [repeat split|].
  destruct (remove_button_follows_marker (device_at Zero Zero) (device_at Zero Zero)
              (mounted Null ∅ []) Zero Zero eq_refl eq_refl eq_refl) as (H & _).
  exact H.
Defined.

(** ** Sessions *)

Lemma tap_cases (a : Action) (dev : Device) (st : State) :
  tap a dev st = st \/
  (loading st = false /\ tap a dev st = commit (snd (handler_of a dev st))).
Proof.
  unfold tap. destruct (offered a st) eqn:Hoff; [|now left].
  right. rewrite interact_snd. split; [|reflexivity].
  unfold offered, render in Hoff. now destruct (loading st).
Qed.

Lemma handler_of_frame (a : Action) (dev : Device) (st : State) :
  loading (snd (handler_of a dev st)) = loading st /\
  (viewport st <> None -> viewport (snd (handler_of a dev st)) <> None).
Proof.
  destruct a; cbn [handler_of].
  - destruct (handleSetMarker_effect dev st) as (-> & -> & _). now split.
  - destruct (handleRemoveMarker_effect dev st) as (_ & -> & -> & _). now split.
  - destruct (centerMapOnUser_effect dev st) as (_ & -> & _ & [-> | H]); [now split|].
    destruct H as (lat & lon & _ & _ & _ & ->). split; [reflexivity | discriminate].
Qed.

Lemma handler_of_other_keys (a : Action) (dev : Device) (st : State) (k : string) :
  k <> "marker"%string ->
  storage (snd (handler_of a dev st)) !! k = storage st !! k.
Proof.
  intros Hk. destruct a; cbn [handler_of].
  - destruct (handleSetMarker_effect dev st) as (_ & _ & [(_ & -> & _) | H]);
      [reflexivity|].
    destruct H as (lat & lon & _ & _ & _ & ->).
    destruct (storage_up dev); [|reflexivity]. now apply lookup_insert_ne.
  - destruct (handleRemoveMarker_effect dev st) as (_ & _ & _ & ->).
    destruct (storage_up dev); [|reflexivity]. now apply lookup_delete_ne.
  - now destruct (centerMapOnUser_effect dev st) as (_ & _ & -> & _).
Qed.

Lemma tap_mounted (a : Action) (dev : Device) (st : State) :
  map_mounted st ->
  map_mounted (tap a dev st) /\
  (tap a dev st = st \/ tap a dev st = snd (handler_of a dev st)).
Proof.
  intros [Hl Hv]. destruct (handler_of_frame a dev st) as [Hl' Hv'].
  specialize (Hv' Hv).
  destruct (tap_cases a dev st) as [-> | [_ ->]]; [split; [now split | now left]|].
  destruct (commit_frame (snd (handler_of a dev st))) as (_ & _ & _ & _ & Hid & _).
  rewrite (Hid Hv'). split; [|now right]. split; congruence.
Qed.

Lemma session_mounted (taps : list (Action * Device)) (st : State) :
  map_mounted st -> map_mounted (session taps st).
Proof.
  revert st. induction taps as [|[a dev] taps IH]; intros st Hst; [exact Hst|].
  cbn [session]. apply IH. now apply tap_mounted.
Qed.

Lemma launch_mounted (dev : Device) (store : gmap string string) :
  map_mounted (launch dev store).
Proof.
  destruct (launch_frame dev store) as (_ & Hl & _ & Hv & _).
  split; [exact Hl|]. rewrite Hv. discriminate.
Qed.

Lemma tap_null_or_object (a : Action) (dev : Device) (st : State) :
  null_or_object (marker st) = true -> null_or_object (marker (tap a dev st)) = true.
Proof.
  intros Hst. destruct (tap_cases a dev st) as [-> | [_ ->]]; [exact Hst|].
  destruct (commit_frame (snd (handler_of a dev st))) as (-> & _).
  destruct a; cbn [handler_of].
  - destruct (handleSetMarker_effect dev st) as (_ & _ & [(-> & _) | H]); [exact Hst|].
    destruct H as (lat & lon & _ & _ & -> & _). reflexivity.
  - destruct (handleRemoveMarker_effect dev st) as (-> & _). reflexivity.
  - destruct (centerMapOnUser_effect dev st) as (-> & _). exact Hst.
Qed.

Lemma session_null_or_object (taps : list (Action * Device)) (st : State) :
  null_or_object (marker st) = true -> null_or_object (marker (session taps st)) = true.
Proof.
  revert st. induction taps as [|[a dev] taps IH]; intros st Hst; [exact Hst|].
  cbn [session]. apply IH. now apply tap_null_or_object.
Qed.

(** X9. Throughout a session the map stays mounted: after the
    initialization over a store whose record, if JSON.parse reads it, is
    that of null or of an object, and any sequence of taps, answered in
    any way by the device, the marker is null or an object, the loading
    state is over and a map is on the screen, so a tap on center-on-me
    with the permission granted and a fix at (lat, lon) always leaves
    the map on the region of (lat, lon) with deltas 0.01, animated over
    1000 ms, and changes neither the marker nor the store. *)
Theorem center_always_moves_the_map (dev0 dev : Device) (store : gmap string string)
        (taps : list (Action * Device)) (lat lon : JsNumber) :
  object_record store = true ->
  permission dev = Resolved "granted"%string ->
  position dev = Resolved {| coords_latitude := lat; coords_longitude := lon |} ->
  null_or_object (marker (session taps (launch dev0 store))) = true /\
  loading (session taps (launch dev0 store)) = false /\
  viewport (tap TapCenter dev (session taps (launch dev0 store)))
  = Some (region_at lat lon) /\
  In (AnimateToRegion (region_at lat lon) 1000)
     (trace (tap TapCenter dev (session taps (launch dev0 store)))) /\
  marker (tap TapCenter dev (session taps (launch dev0 store)))
  = marker (session taps (launch dev0 store)) /\
  storage (tap TapCenter dev (session taps (launch dev0 store)))
  = storage (session taps (launch dev0 store)).
Proof.
  intros Hshape Hp Hfix.
  split; [apply session_null_or_object; now apply launch_null_or_object|].
  pose proof (session_mounted taps _ (launch_mounted dev0 store)) as Hm.
  set (st := session taps (launch dev0 store)) in *.
  destruct Hm as [Hl Hv]. split; [exact Hl|].
  assert (Htap : tap TapCenter dev st = snd (centerMapOnUser dev st)).
  { unfold tap, offered, render. rewrite Hl, interact_snd. cbn [handler_of].
    destruct (commit_frame (snd (centerMapOnUser dev st))) as (_ & _ & _ & _ & Hid & _).
    apply Hid. destruct (handler_of_frame TapCenter dev st) as [_ H]. now apply H. }
  rewrite Htap, (centerMapOnUser_granted dev st lat lon Hp Hfix).
  destruct (viewport st) as [r|]; [|congruence].
  cbn [snd viewport trace marker storage]. repeat split.
  apply in_or_app. right. right. right. now left.
Qed.

Lemma center_always_moves_the_map_witness :
  (object_record store_1_2 = true /\
   permission (device_at ten twenty) = Resolved "granted"%string /\
   position (device_at ten twenty)
   = Resolved {| coords_latitude := ten; coords_longitude := twenty |}) /\
  viewport (tap TapCenter (device_at ten twenty)
              (session [(TapRemove, storage_down_device); (TapSave, device_at one two)]
                 (launch denied_device store_1_2)))
  = Some (region_at ten twenty).
Proof.
  split; [repeat split|].
  destruct (center_always_moves_the_map denied_device (device_at ten twenty) store_1_2
              [(TapRemove, storage_down_device); (TapSave, device_at one two)] ten twenty
              eq_refl eq_refl eq_refl) as (_ & _ & H & _).
  exact H.
Defined.

Lemma tap_other_keys (a : Action) (dev : Device) (st : State) (k : string) :
  k <> "marker"%string -> storage (tap a dev st) !! k = storage st !! k.
Proof.
  intros Hk. destruct (tap_cases a dev st) as [-> | [_ ->]]; [reflexivity|].
  destruct (commit_frame (snd (handler_of a dev st))) as (_ & _ & -> & _).
  now apply handler_of_other_keys.
Qed.

(** X10. The screen touches no other key of AsyncStorage than [marker]:
    after the initialization and any sequence of taps, whatever the
    device answers, every other key holds what it held before. *)
Theorem session_keeps_other_keys (dev0 : Device) (store : gmap string string)
        (taps : list (Action * Device)) (k : string) :
  k <> "marker"%string ->
  storage (session taps (launch dev0 store)) !! k = store !! k.
Proof.
  intros Hk.
  destruct (launch_frame dev0 store) as (_ & _ & Hs & _).
  rewrite <- Hs at 2. generalize (launch dev0 store). clear Hs.
  induction taps as [|[a dev] taps IH]; intros st; [reflexivity|].
  cbn [session]. rewrite IH. now apply tap_other_keys.
Qed.

Lemma session_keeps_other_keys_witness :
  "theme"%string <> "marker"%string /\
  storage (session [(TapSave, device_at one two); (TapRemove, device_at one two)]
             (launch (device_at one two) {[ "theme"%string := "dark"%string ]}))
    !! "theme"%string
  = ({[ "theme"%string := "dark"%string ]} : gmap string string) !! "theme"%string.
Proof.
  split; [discriminate|].
  apply (session_keeps_other_keys (device_at one two) {[ "theme"%string := "dark"%string ]}
           [(TapSave, device_at one two); (TapRemove, device_at one two)] "theme").
  discriminate.
Defined.

Lemma in_sync_ext (st st' : State) :
  marker st' = marker st -> storage st' = storage st -> in_sync st -> in_sync st'.
Proof. unfold in_sync, persisted. now intros -> ->. Qed.

Lemma finite_fix_position (dev : Device) (lat lon : JsNumber) :
  finite_fix dev = true ->
  position dev = Resolved {| coords_latitude := lat; coords_longitude := lon |} ->
  finite lat = true /\ finite lon = true.
Proof.
  unfold finite_fix. intros H Hfix. rewrite Hfix in H.
  cbn [coords_latitude coords_longitude] in H. now apply andb_true_iff in H.
Qed.

Lemma tap_in_sync (a : Action) (dev : Device) (st : State) :
  sound_device dev = true -> in_sync st -> in_sync (tap a dev st).
Proof.
  intros Hdev Hst. apply andb_true_iff in Hdev as [Hup Hfin].
  destruct (tap_cases a dev st) as [-> | [_ ->]]; [exact Hst|].
  destruct (commit_frame (snd (handler_of a dev st))) as (Hm & _ & Hs & _).
  apply (in_sync_ext (snd (handler_of a dev st))); [exact Hm | exact Hs |].
  destruct a; cbn [handler_of].
  - destruct (handleSetMarker_effect dev st) as (_ & _ & [(Hm' & Hs' & _) | H]).
    + now apply (in_sync_ext st).
    + destruct H as (lat & lon & _ & Hfix & Hm' & Hs'). rewrite Hup in Hs'.
      destruct (finite_fix_position dev lat lon Hfin Hfix) as [Hlat Hlon].
      unfold in_sync, persisted. rewrite Hm', Hs', lookup_insert_eq.
      cbn [decoded]. now apply record_roundtrip.
  - destruct (handleRemoveMarker_effect dev st) as (Hm' & _ & _ & Hs').
    rewrite Hup in Hs'. unfold in_sync, persisted.
    now rewrite Hm', Hs', lookup_delete_eq.
  - destruct (centerMapOnUser_effect dev st) as (Hm' & _ & Hs' & _).
    now apply (in_sync_ext st).
Qed.

(** X11. The two copies of the marker stay equal throughout a session:
    from a state in which the in-memory marker is what the record
    decodes to, any sequence of taps (save, remove, center; permission
    granted, denied or failing; fix or no fix) leaves them equal, as
    long as the calls to AsyncStorage resolve and the coordinates of the
    fixes are finite. *)
Theorem session_stays_in_sync (taps : list (Action * Device)) (st : State) :
  forallb (fun t => sound_device (snd t)) taps = true ->
  in_sync st ->
  in_sync (session taps st).
Proof.
  revert st. induction taps as [|[a dev] taps IH]; intros st Hdevs Hst; [exact Hst|].
  cbn [forallb snd] in Hdevs. apply andb_true_iff in Hdevs as [Hdev Hdevs].
  cbn [session]. apply IH; [exact Hdevs|]. now apply tap_in_sync.
Qed.

Lemma session_stays_in_sync_witness :
  (forallb (fun t => sound_device (snd t))
     [(TapSave, device_at ten twenty); (TapCenter, denied_device);
      (TapRemove, device_at one two); (TapSave, device_at one two)] = true /\
   in_sync (launch (device_at one two) store_1_2)) /\
  in_sync (session [(TapSave, device_at ten twenty); (TapCenter, denied_device);
                    (TapRemove, device_at one two); (TapSave, device_at one two)]
             (launch (device_at one two) store_1_2)).
Proof.
  assert (H0 : in_sync (launch (device_at one two) store_1_2))
    by (unfold in_sync; vm_compute; reflexivity).
  split; [split; [reflexivity | exact H0]|].
  apply (session_stays_in_sync
           [(TapSave, device_at ten twenty); (TapCenter, denied_device);
            (TapRemove, device_at one two); (TapSave, device_at one two)]
           (launch (device_at one two) store_1_2)); [reflexivity | exact H0].
Defined.

Lemma own_record_insert (store : gmap string string) (lat lon : JsNumber) :
  finite lat = true -> finite lon = true ->
  own_record (<["marker"%string :=
                  string_of (coordinate_text (number_text lat) (number_text lon))]> store).
Proof.
  intros Hlat Hlon. right. exists lat, lon. split; [exact Hlat|]. split; [exact Hlon|].
  now rewrite lookup_insert_eq, stringify_coordinate_some.
Qed.

Lemma tap_own_record (a : Action) (dev : Device) (st : State) :
  finite_fix dev = true ->
  coordinate_or_null (marker st) /\ own_record (storage st) ->
  coordinate_or_null (marker (tap a dev st)) /\ own_record (storage (tap a dev st)).
Proof.
  intros Hfin [Hm Hs].
  destruct (tap_cases a dev st) as [-> | [_ ->]]; [now split|].
  destruct (commit_frame (snd (handler_of a dev st))) as (-> & _ & -> & _).
  destruct a; cbn [handler_of].
  - destruct (handleSetMarker_effect dev st) as (_ & _ & [(-> & -> & _) | H]);
      [now split|].
    destruct H as (lat & lon & _ & Hfix & -> & ->).
    destruct (finite_fix_position dev lat lon Hfin Hfix) as [Hlat Hlon].
    split; [right; now exists lat, lon|].
    destruct (storage_up dev); [now apply own_record_insert | exact Hs].
  - destruct (handleRemoveMarker_effect dev st) as (-> & _ & _ & ->).
    split; [now left|].
    destruct (storage_up dev); [left; apply lookup_delete_eq | exact Hs].
  - destruct (centerMapOnUser_effect dev st) as (-> & _ & -> & _). now split.
Qed.

Lemma launch_own_record (dev : Device) (store : gmap string string) :
  own_record store ->
  coordinate_or_null (marker (launch dev store)) /\ own_record (storage (launch dev store)).
Proof.
  intros Hown. destruct (launch_frame dev store) as (_ & _ & Hs & _ & Hm).
  rewrite Hs. split; [|exact Hown].
  destruct Hm as [-> | (s & _ & Hrec & _ & Hparse)]; [now left|].
  destruct Hown as [Hnone | (lat & lon & Hlat & Hlon & Hrec')]; [congruence|].
  rewrite stringify_coordinate_some in Hrec'.
  assert (Es : s = string_of (coordinate_text (number_text lat) (number_text lon)))
    by congruence.
  destruct (record_roundtrip lat lon Hlat Hlon) as [_ Hparse'].
  cbv zeta in Hparse'. rewrite <- Es in Hparse'.
  right. exists lat, lon. split; [exact Hlat|]. split; [exact Hlon|]. congruence.
Qed.

(** X12. On its own data the screen keeps the marker of its declared
    type: if the store holds no record or the record of a coordinate of
    finite numbers, then after the initialization and any sequence of
    taps whose fixes are finite (the storage calls may fail) the
    in-memory marker is null or a coordinate of two finite numbers, and
    the store again holds no record or the record of such a coordinate,
    so that the same holds of every later launch. *)
Theorem sessions_keep_marker_typed (dev0 : Device) (store : gmap string string)
        (taps : list (Action * Device)) :
  own_record store ->
  forallb (fun t => finite_fix (snd t)) taps = true ->
  coordinate_or_null (marker (session taps (launch dev0 store))) /\
  own_record (storage (session taps (launch dev0 store))).
Proof.
  intros Hown Hdevs.
  pose proof (launch_own_record dev0 store Hown) as H0.
  revert H0. generalize (launch dev0 store). clear Hown.
  induction taps as [|[a dev] taps IH]; intros st Hst; [exact Hst|].
  cbn [forallb snd] in Hdevs. apply andb_true_iff in Hdevs as [Hdev Hdevs].
  cbn [session]. apply IH; [exact Hdevs|]. now apply tap_own_record.
Qed.

Lemma sessions_keep_marker_typed_witness :
  (own_record store_1_2 /\
   forallb (fun t => finite_fix (snd t))
     [(TapRemove, {| permission := Rejected; position := Rejected; storage_up := false |});
      (TapSave, device_at ten twenty)] = true) /\
  coordinate_or_null
    (marker (session
               [(TapRemove, {| permission := Rejected; position := Rejected;
                               storage_up := false |});
                (TapSave, device_at ten twenty)]
               (launch (device_at one two) store_1_2))) /\
  own_record
    (storage (session
                [(TapRemove, {| permission := Rejected; position := Rejected;
                                storage_up := false |});
                 (TapSave, device_at ten twenty)]
                (launch (device_at one two) store_1_2))).
Proof.
  assert (Hown : own_record store_1_2).
  { right. exists one, two. split; [reflexivity|]. split; [reflexivity|].
    vm_compute. reflexivity. }
  split; [split; [exact Hown | reflexivity]|].
  apply (sessions_keep_marker_typed (device_at one two) store_1_2
           [(TapRemove, {| permission := Rejected; position := Rejected;
                           storage_up := false |});
            (TapSave, device_at ten twenty)] Hown).
  reflexivity.
Defined.

(** ** The plain screen (app/app.tsx) *)

Lemma plain_tap_cases (dev : Device) (st : State) :
  plain_tap dev st = st \/ plain_tap dev st = commit (snd (handleSetMarker dev st)).
Proof.
  unfold plain_tap. destruct (plain_offered st); [|now left].
  right. now rewrite interact_snd.
Qed.

Lemma plain_tap_keeps (dev : Device) (st : State) :
  (persisted st <> None -> persisted (plain_tap dev st) <> None) /\
  (truthy (marker st) = true -> truthy (marker (plain_tap dev st)) = true).
Proof.
  destruct (plain_tap_cases dev st) as [-> | ->]; [now split|].
  destruct (commit_frame (snd (handleSetMarker dev st))) as (Hm & _ & Hs & _).
  unfold persisted. rewrite Hm, Hs.
  destruct (handleSetMarker_effect dev st) as (_ & _ & [(-> & -> & _) | H]);
    [now split|].
  destruct H as (lat & lon & _ & _ & -> & ->). split; [|reflexivity].
  intros Hrec. destruct (storage_up dev); [|exact Hrec].
  now rewrite lookup_insert_eq.
Qed.

(** X13. The plain screen has no way back: it offers the save action
    only, so once a record is stored no sequence of taps, whatever the
    device answers, leaves the store without a record, and once the
    in-memory marker is truthy it stays truthy. *)
Theorem plain_screen_never_clears (taps : list Device) (st : State) :
  (persisted st <> None -> persisted (plain_session taps st) <> None) /\
  (truthy (marker st) = true -> truthy (marker (plain_session taps st)) = true).
Proof.
  revert st. induction taps as [|dev taps IH]; intros st; [now split|].
  cbn [plain_session]. destruct (plain_tap_keeps dev st) as [H1 H2].
  destruct (IH (plain_tap dev st)) as [H3 H4]. split; auto.
Qed.

Lemma plain_screen_never_clears_witness :
  (persisted screen_1_2 <> None /\ truthy (marker screen_1_2) = true) /\
  persisted (plain_session [denied_device; device_at ten twenty] screen_1_2) <> None /\
  truthy (marker (plain_session [denied_device; device_at ten twenty] screen_1_2)) = true.
Proof.
  assert (H0 : persisted screen_1_2 <> None) by (vm_compute; discriminate).
  split; [split; [exact H0 | reflexivity]|].
  destruct (plain_screen_never_clears [denied_device; device_at ten twenty] screen_1_2)
    as [H1 H2].
  split; [exact (H1 H0) | exact (H2 eq_refl)].
Defined.

(** ** The side menu *)

Lemma closeMenu_closing (width : JsNumber) (m : Menu) : closing width (closeMenu width m).
Proof. split; [reflexivity | now left]. Qed.

Lemma closing_step (width : JsNumber) (times : JsNumber -> JsNumber -> JsNumber)
      (e : MenuEvent) (m : Menu) :
  not_opening e = true -> closing width m -> closing width (menu_step width times e m).
Proof.
  intros He Hm. destruct e; [discriminate He| |]; cbn [menu_step].
  - destruct (menuVisible m); [apply closeMenu_closing | exact Hm].
  - destruct Hm as [Hs [Hr | [Hr Hv]]]; unfold animation_over; rewrite Hr.
    + split; [exact Hs | right; split; reflexivity].
    + split; [exact Hs | right; now split].
Qed.

Lemma closing_run (width : JsNumber) (times : JsNumber -> JsNumber -> JsNumber)
      (events : list MenuEvent) (m : Menu) :
  forallb not_opening events = true ->
  closing width m ->
  closing width (menu_run width times events m).
Proof.
  revert m. induction events as [|e events IH]; intros m He Hm; [exact Hm|].
  cbn [forallb] in He. apply andb_prop in He. destruct He as [He Hrest].
  change (menu_run width times (e :: events) m)
    with (menu_run width times events (menu_step width times e m)).
  apply IH; [exact Hrest|]. now apply closing_step.
Qed.

Lemma closing_over (width : JsNumber) (m : Menu) :
  closing width m -> animation_over m = closed_menu width.
Proof.
  destruct m as [v t r]. intros [Hs [Hr | [Hr Hv]]]; cbn in Hs, Hr; subst;
    unfold animation_over; cbn; [reflexivity|].
  cbn in Hv. now subst.
Qed.

(** X14. Closing always closes.  [closeMenu] leaves [menuVisible] as it
    was, unless a close animation is already running: starting the new
    animation stops that one, whose callback hides the menu at once.
    From any state of the menu, after [closeMenu] and any further taps
    on the overlay and ends of animations (no tap on the menu button),
    the end of the animation leaves the menu in its initial state: not
    visible, the panel back at [width], no animation running. *)
Theorem close_menu_always_closes (width : JsNumber)
        (times : JsNumber -> JsNumber -> JsNumber)
        (events : list MenuEvent) (m : Menu) :
  forallb not_opening events = true ->
  menuVisible (closeMenu width m)
  = match running m with
    | Some HideMenu => false
    | _ => menuVisible m
    end /\
  menu_run width times (events ++ [AnimationEnds]) (closeMenu width m)
  = closed_menu width.
Proof.
  intros He. split.
  - unfold closeMenu, start_timing, animation_over. cbv zeta.
    now destruct (running m) as [[]|].
  - unfold menu_run. rewrite fold_left_app. cbn [fold_left menu_step].
    apply closing_over.
    apply (closing_run width times events _ He), closeMenu_closing.
Qed.

Lemma close_menu_always_closes_witness :
  forallb not_opening [TapOverlay; AnimationEnds; TapOverlay] = true /\
  menuVisible (closeMenu width_400 open_menu_400) = true /\
  menuVisible (closeMenu width_400 (closeMenu width_400 open_menu_400)) = false /\
  menu_run width_400 times_400
    ([TapOverlay; AnimationEnds; TapOverlay] ++ [AnimationEnds])
    (closeMenu width_400 open_menu_400)
  = closed_menu width_400.
Proof.
  split; [reflexivity|].
  split; [exact (proj1 (close_menu_always_closes width_400 times_400 []
                          open_menu_400 eq_refl))|].
  split; [exact (proj1 (close_menu_always_closes width_400 times_400 []
                          (closeMenu width_400 open_menu_400) eq_refl))|].
  exact (proj2 (close_menu_always_closes width_400 times_400
                  [TapOverlay; AnimationEnds; TapOverlay] open_menu_400 eq_refl)).
Defined.

(** X15. [openMenu] shows the menu unless a close animation is running.
    The callback of [closeMenu] does not look at how its animation
    ended, and starting the open animation stops the close animation:
    so when [openMenu] is called while the menu is closing, it returns
    with the menu hidden, the panel on its way to the open position
    [width * 0.4] and no callback to come, and the menu is still hidden
    when that animation has ended.  The next call of [openMenu] then
    shows it. *)
Theorem reopening_while_closing_hides_menu (width : JsNumber)
        (times : JsNumber -> JsNumber -> JsNumber) (m : Menu) :
  menuVisible (openMenu width times m)
  = match running m with
    | Some HideMenu => false
    | _ => true
    end /\
  openMenu width times (closeMenu width m)
  = {| menuVisible := false;
       slideTo := times width (literal "0.4");
       running := Some NoCallback |} /\
  animation_over (openMenu width times (closeMenu width m))
  = {| menuVisible := false;
       slideTo := times width (literal "0.4");
       running := None |} /\
  menuVisible
    (openMenu width times (animation_over (openMenu width times (closeMenu width m))))
  = true.
Proof.
  split; [|repeat split].
  unfold openMenu, start_timing, animation_over, setMenuVisible. cbv zeta.
  cbn [running menuVisible slideTo]. now destruct (running m) as [[]|].
Qed.

(** ** What moves the map, and what does not *)

(** X16. The center-on-me action only ever moves the map: in every case
    (status granted or not, request or fix failing, map mounted or not)
    it leaves the marker, the store and the loading state as they were,
    and it calls neither AsyncStorage nor the console. *)
Theorem center_only_moves_the_map (dev : Device) (st : State) :
  marker (snd (centerMapOnUser dev st)) = marker st /\
  loading (snd (centerMapOnUser dev st)) = loading st /\
  storage (snd (centerMapOnUser dev st)) = storage st /\
  (forall k, ~ In (GetItem k) (calls (centerMapOnUser dev) st)) /\
  (forall k v, ~ In (SetItem k v) (calls (centerMapOnUser dev) st)) /\
  (forall k, ~ In (RemoveItem k) (calls (centerMapOnUser dev) st)) /\
  (forall message e, ~ In (ConsoleLog message e) (calls (centerMapOnUser dev) st)).
Proof.
  destruct (centerMapOnUser_effect dev st) as (H1 & H2 & H3 & _).
  repeat (split; [assumption|]).
  destruct (centerMapOnUser_calls dev st) as [E | [E | [E | (lat & lon & E)]]];
    rewrite E; repeat split; intros;
    (intros Hin; repeat (destruct Hin as [H | Hin]; [discriminate H|]); destruct Hin).
Qed.

(** X17. Saving and removing never move the map: on a mounted map a tap
    on save or on remove, whatever the device answers, leaves the
    viewport where it was (the map does not jump to a marker that has
    just been saved). *)
Theorem save_and_remove_keep_the_viewport (a : Action) (dev : Device) (st : State) :
  map_mounted st ->
  a <> TapCenter ->
  viewport (tap a dev st) = viewport st.
Proof.
  intros Hst Ha. destruct (tap_mounted a dev st Hst) as [_ [-> | ->]]; [reflexivity|].
  destruct a; cbn [handler_of]; [| |congruence].
  - now destruct (handleSetMarker_effect dev st) as (_ & -> & _).
  - now destruct (handleRemoveMarker_effect dev st) as (_ & _ & -> & _).
Qed.

Lemma save_and_remove_keep_the_viewport_witness :
  (map_mounted (launch (device_at one two) ∅) /\ TapSave <> TapCenter) /\
  viewport (tap TapSave (device_at ten twenty) (launch (device_at one two) ∅))
  = viewport (launch (device_at one two) ∅).
Proof.
  split; [split; [apply launch_mounted | discriminate]|].
  apply (save_and_remove_keep_the_viewport TapSave (device_at ten twenty)
           (launch (device_at one two) ∅)); [apply launch_mounted | discriminate].
Defined.

(** X18. The next launch opens the map on the saved marker: after a
    completed save of a fix whose coordinates are finite and not zero,
    an initialization over the store the save left yields that
    coordinate as the marker and mounts the map on it. *)
Theorem next_launch_opens_on_saved_marker (dev dev' : Device) (st : State)
        (lat lon : JsNumber) :
  permission dev = Resolved "granted"%string ->
  position dev = Resolved {| coords_latitude := lat; coords_longitude := lon |} ->
  storage_up dev = true ->
  storage_up dev' = true ->
  finite lat = true -> finite lon = true ->
  lat <> Zero -> lon <> Zero ->
  marker (launch dev' (storage (snd (handleSetMarker dev st)))) = coordinate lat lon /\
  viewport (launch dev' (storage (snd (handleSetMarker dev st))))
  = Some (region_at lat lon).
Proof.
  intros Hp Hfix Hup Hup' Hlat Hlon Hlat0 Hlon0.
  destruct (handleSetMarker_saved dev st lat lon Hp Hfix Hup) as [_ Hs].
  unfold launch. apply initialize_stored_marker; try assumption.
  now rewrite Hs, lookup_insert_eq, stringify_coordinate_some.
Qed.

Lemma next_launch_opens_on_saved_marker_witness :
  (permission (device_at ten twenty) = Resolved "granted"%string /\
   storage_up (device_at ten twenty) = true /\
   finite ten = true /\ finite twenty = true /\ ten <> Zero /\ twenty <> Zero) /\
  marker (launch (device_at one two)
            (storage (snd (handleSetMarker (device_at ten twenty) screen_1_2))))
  = coordinate ten twenty /\
  viewport (launch (device_at one two)
              (storage (snd (handleSetMarker (device_at ten twenty) screen_1_2))))
  = Some (region_at ten twenty).
Proof.
  split; [repeat split; discriminate|].
  apply (next_launch_opens_on_saved_marker (device_at ten twenty) (device_at one two)
           screen_1_2 ten twenty); (reflexivity || discriminate).
Defined.
